(** * MIDIVibes: the envelope trigger and pedal logic of MIDIVibes.ino

    A shallow embedding of the sketch's [do_channel], [midi_send],
    [checkFootSwitchOnD2] and [loop], followed by the properties of the
    per-pad state machine and of the poll cycle.

    Conventions of the embedding.
    - The bit-fields of [pad_t] are carried as [Z] (and [bool] for the
      one-bit flag); a store of an [int] into the ten-bit field
      [curAmplitude] truncates, and is written out with [wrap10].  A copy
      between two fields of the same width does not truncate.
    - The serial port is the list of three-byte messages written so far;
      every function that writes returns the messages it wrote.
    - [pad_t&] parameters become a pad taken from and stored back into the
      table by the caller ([with_pad]).
    - [analogRead] and [digitalRead] are inputs of a cycle; the global
      [curPedalState] read by [do_channel] is an argument of it. *)

From Stdlib Require Import ZArith Bool Lia.
From stdpp Require Import base list.

Module MIDIVibes.

(** ** Constants *)

Definition ARDUINO_NUMBER : nat := 0.

Definition velocitySensitive : bool := false.

(** The two file-scope constants share their names with fields of
    [pad_t]; they live in a name space of their own. *)
Module Cfg.
Definition minAmplitude : Z := 30.
Definition curAmplitude : Z := minAmplitude.
End Cfg.

Definition MIDI_CHANNEL : Z := 0.

(** ** Data *)

Record pad_t := mk_pad {
  active : bool;        (*  1 bit  *)
  note : Z;             (*  7 bits *)
  minAmplitude : Z;     (* 10 bits *)
  unused1 : Z;          (*  7 bits *)
  curAmplitude : Z;     (* 10 bits *)
  unused2 : Z           (* 10 bits *)
}.

Definition set_active (b : bool) (pad : pad_t) : pad_t :=
  mk_pad b (note pad) (minAmplitude pad) (unused1 pad) (curAmplitude pad) (unused2 pad).

Definition set_curAmplitude (v : Z) (pad : pad_t) : pad_t :=
  mk_pad (active pad) (note pad) (minAmplitude pad) (unused1 pad) v (unused2 pad).

(** Truncation of a value stored into a ten-bit unsigned field, and
    conversion of an [int] argument to a [uint8_t] parameter. *)
Definition wrap10 (v : Z) : Z := (v mod 1024)%Z.
Definition to_uint8 (v : Z) : Z := (v mod 256)%Z.

(** Braced initialiser of the table: five values, [unused2] is
    zero-initialised. *)
Definition pad_init (a : bool) (n m u c : Z) : pad_t := mk_pad a n m u c 0.

Definition table := list (list pad_t).

Definition row_init (n0 n1 n2 : Z) : list pad_t :=
  [ pad_init false n0 Cfg.minAmplitude 0 Cfg.curAmplitude;
    pad_init false n1 Cfg.minAmplitude 0 Cfg.curAmplitude;
    pad_init false n2 Cfg.minAmplitude 0 Cfg.curAmplitude ].

Definition pads_init : table :=
  [ row_init 53 54 0;    (* PAD   0, 16, 32 *)
    row_init 55 56 0;    (* PAD   1, 17, 33 *)
    row_init 57 58 0;    (* PAD   2, 18, 34 *)
    row_init 59 61 0;    (* PAD   3, 19, 35 *)
    row_init 60 63 0;    (* PAD   4, 20, 36 *)
    row_init 62 66 0;    (* PAD   5, 21, 37 *)
    row_init 64 68 0;    (* PAD   6, 22, 38 *)
    row_init 65 70 0;    (* PAD   7, 23, 39 *)
    row_init 67 73 0;    (* PAD   8, 24, 40 *)
    row_init 69 75 0;    (* PAD   9, 25, 41 *)
    row_init 71 78 0;    (* PAD  10, 26, 42 *)
    row_init 72 80 0;    (* PAD  11, 27, 43 *)
    row_init 74 82 0;    (* PAD  12, 28, 44 *)
    row_init 76 85 0;    (* PAD  13, 29, 45 *)
    row_init 77 87 0;    (* PAD  14, 30, 46 *)
    row_init 79  0 0 ].  (* PAD  15, 31, 47 *)

(** The sixteen analog inputs of the board. *)
Inductive analog_pin :=
  | A0 | A1 | A2 | A3 | A4 | A5 | A6 | A7
  | A8 | A9 | A10 | A11 | A12 | A13 | A14 | A15.

Definition pinsADC : list analog_pin :=
  [A0; A1; A2; A3; A4; A5; A6; A7; A8; A9; A10; A11; A12; A13; A14; A15].

(** One MIDI message: the three bytes of one [midi_send]. *)
Record midi_msg := mk_msg { status : Z; pitch : Z; velocity : Z }.

Definition wire (m : midi_msg) : list Z := [status m; pitch m; velocity m].

(** The two events of the sketch.  A note-off is sent as a note-on
    (status 0x90) of velocity zero. *)
Definition NoteOn (n v : Z) : midi_msg := mk_msg 0x90 n v.
Definition NoteOff (n : Z) : midi_msg := mk_msg 0x90 n 0.

(** Global state of the sketch: the table, the stored pedal state, and the
    level last written to the LED pin. *)
Record state := mk_state {
  pads : table;
  curPedalState : bool;
  led : bool
}.

Definition init_state : state := mk_state pads_init false false.

(** What one cycle reads from the board: the level of the pedal pin
    ([true] is HIGH) and the analog inputs. *)
Record inputs := mk_inputs {
  digitalRead_D2 : bool;
  analogRead : analog_pin -> Z
}.

(** [analogRead] returns a ten-bit conversion. *)
Definition adc_range (v : Z) : Prop := (0 <= v <= 1023)%Z.

(** ** Arduino core arithmetic used by the sketch *)

Definition constrain (x lo hi : Z) : Z :=
  if (x <? lo)%Z then lo else if (x >? hi)%Z then hi else x.

Definition map_range (x in_min in_max out_min out_max : Z) : Z :=
  ((x - in_min) * (out_max - out_min) ÷ (in_max - in_min) + out_min)%Z.

(** ** The sketch *)

Definition midi_send (midi_message pitch_ midi_velocity : Z) : list midi_msg :=
  let noteOnCommand := to_uint8 (midi_message + MIDI_CHANNEL) in
  [ mk_msg noteOnCommand pitch_ midi_velocity ].

(** [adc] is [analogRead] and [pedal] the global [curPedalState] at the
    time of the call.  The comparisons of the [int] sample with the ten-bit
    fields are comparisons of integers; the velocity mapped from the sample
    is computed and, [velocitySensitive] being false, replaced by 0x7F. *)
Definition do_channel (adc : analog_pin -> Z) (pedal : bool)
    (pinADC : analog_pin) (pad : pad_t) (iROW : nat) : pad_t * list midi_msg :=
  let analogValue := adc pinADC in
  let constrainedAnalogValue := constrain analogValue 0 300 in
  let velocity0 := map_range constrainedAnalogValue 0 300 0 127 in
  if (analogValue >? minAmplitude pad)%Z then
    if negb (active pad) then
      let pad1 := set_active true pad in
      let pad2 := set_curAmplitude (wrap10 analogValue) pad1 in
      let velocity1 := if negb velocitySensitive then 0x7F%Z else velocity0 in
      (pad2, midi_send 0x90 (note pad2) (to_uint8 velocity1))
    else (pad, [])
  else if active pad then
    let pad1 :=
      if (analogValue <? curAmplitude pad)%Z
      then set_curAmplitude (wrap10 analogValue) pad else pad in
    if (analogValue <=? minAmplitude pad1)%Z then
      let pad2 := set_curAmplitude (minAmplitude pad1) pad1 in
      if negb pedal
      then (set_active false pad2, midi_send 0x90 (note pad2) 0)
      else (pad2, [])
    else (pad1, [])
  else (pad, []).

(** [digitalRead(SustainPedalPin) == HIGH] gives LED low and [false]. *)
Definition checkFootSwitchOnD2 (sustainPedalValue : bool) : bool * bool :=
  if sustainPedalValue then (false, false) else (true, true).

(** *** Table access *)

Definition get_pad (tbl : table) (r c : nat) : option pad_t :=
  match tbl !! r with
  | Some row => row !! c
  | None => None
  end.

Definition set_pad (tbl : table) (r c : nat) (pad : pad_t) : table :=
  match tbl !! r with
  | Some row => <[r := <[c := pad]> row]> tbl
  | None => tbl
  end.

(** Run [f] on the pad at row [r], column [c] and store the pad back.  The
    loops of the sketch never leave the table; outside it nothing happens
    here. *)
Definition with_pad (r c : nat) (f : pad_t -> pad_t * list midi_msg)
    (tbl : table) : table * list midi_msg :=
  match get_pad tbl r c with
  | Some pad => (set_pad tbl r c (f pad).1, (f pad).2)
  | None => (tbl, [])
  end.

(** [for (iROW = ...) body], the messages in the order written. *)
Fixpoint for_rows (rows : list nat)
    (body : nat -> table -> table * list midi_msg) (tbl : table)
    : table * list midi_msg :=
  match rows with
  | [] => (tbl, [])
  | iROW :: rest =>
      let r1 := body iROW tbl in
      let r2 := for_rows rest body r1.1 in
      (r2.1, r1.2 ++ r2.2)
  end.

(** *** The body of the pedal sweep *)

Definition release_pad (pad : pad_t) : pad_t * list midi_msg :=
  if active pad
  then (set_active false pad, midi_send 0x90 (note pad) 0)
  else (pad, []).

(** *** loop() *)

Definition COLUMN : nat := ARDUINO_NUMBER.

Definition ROWS (tbl : table) : nat := length tbl.

(** The body of the sweep loop and the body of the evaluation loop. *)
Definition sweep_body (iROW : nat) (tbl : table) : table * list midi_msg :=
  with_pad iROW COLUMN release_pad tbl.

Definition channel_body (adc : analog_pin -> Z) (pedal : bool) (iROW : nat)
    (tbl : table) : table * list midi_msg :=
  with_pad iROW COLUMN
    (fun pad => do_channel adc pedal (nth iROW pinsADC A0) pad iROW) tbl.

(** First part of [loop]: read the pedal, sweep on a falling edge, store
    the new pedal state. *)
Definition pedal_stage (inp : inputs) (st : state) : state * list midi_msg :=
  let sw := checkFootSwitchOnD2 (digitalRead_D2 inp) in
  let newPedalState := sw.2 in
  let r :=
    if curPedalState st && negb newPedalState
    then for_rows (seq 0 (ROWS (pads st))) sweep_body (pads st)
    else (pads st, []) in
  (mk_state r.1 newPedalState sw.1, r.2).

(** Second part of [loop]: one [do_channel] per row. *)
Definition channel_stage (inp : inputs) (st : state) : state * list midi_msg :=
  let r :=
    for_rows (seq 0 (ROWS (pads st)))
      (channel_body (analogRead inp) (curPedalState st)) (pads st) in
  (mk_state r.1 (curPedalState st) (led st), r.2).

Definition loop (inp : inputs) (st : state) : state * list midi_msg :=
  let s1 := pedal_stage inp st in
  let s2 := channel_stage inp s1.1 in
  (s2.1, s1.2 ++ s2.2).

(** The sketch runs [loop] for ever; [run] is a finite prefix, with the
    messages of each cycle kept apart. *)
Fixpoint run (ins : list inputs) (st : state) : state * list (list midi_msg) :=
  match ins with
  | [] => (st, [])
  | inp :: rest =>
      let s1 := loop inp st in
      let s2 := run rest s1.1 in
      (s2.1, s1.2 :: s2.2)
  end.

Definition serial (outs : list (list midi_msg)) : list midi_msg := concat outs.

(** * Vocabulary of the properties *)

(** The body of a loop that runs [f iROW] on the pad of row [iROW] in
    column [c]. *)
Definition row_body (c : nat) (f : nat -> pad_t -> pad_t * list midi_msg)
    (iROW : nat) : table -> table * list midi_msg :=
  with_pad iROW c (f iROW).

(** [do_channel] with the statement that tracks the decaying minimum
    (`if (analogValue < pad.curAmplitude) pad.curAmplitude = analogValue;`)
    taken out and nothing else changed; used only to state that the
    statement has no effect. *)
Definition do_channel_no_tracking (adc : analog_pin -> Z) (pedal : bool)
    (pinADC : analog_pin) (pad : pad_t) (iROW : nat) : pad_t * list midi_msg :=
  let analogValue := adc pinADC in
  let constrainedAnalogValue := constrain analogValue 0 300 in
  let velocity0 := map_range constrainedAnalogValue 0 300 0 127 in
  if (analogValue >? minAmplitude pad)%Z then
    if negb (active pad) then
      let pad1 := set_active true pad in
      let pad2 := set_curAmplitude (wrap10 analogValue) pad1 in
      let velocity1 := if negb velocitySensitive then 0x7F%Z else velocity0 in
      (pad2, midi_send 0x90 (note pad2) (to_uint8 velocity1))
    else (pad, [])
  else if active pad then
    if (analogValue <=? minAmplitude pad)%Z then
      let pad2 := set_curAmplitude (minAmplitude pad) pad in
      if negb pedal
      then (set_active false pad2, midi_send 0x90 (note pad2) 0)
      else (pad2, [])
    else (pad, [])
  else (pad, []).

Definition pad_at (st : state) (r : nat) : option pad_t :=
  get_pad (pads st) r COLUMN.

(** The pedal level read in a cycle, and whether the cycle sees the pedal
    go from pressed to released. *)
Definition held_now (inp : inputs) : bool :=
  (checkFootSwitchOnD2 (digitalRead_D2 inp)).2.

Definition falling (inp : inputs) (st : state) : bool :=
  curPedalState st && negb (held_now inp).

(** What [loop] does to the pad of row [iROW], seen from that pad alone. *)
Definition pad_sweep (edge : bool) (pad : pad_t) : pad_t * list midi_msg :=
  if edge then release_pad pad else (pad, []).

Definition pad_eval (inp : inputs) (iROW : nat) (pad : pad_t)
    : pad_t * list midi_msg :=
  do_channel (analogRead inp) (held_now inp) (nth iROW pinsADC A0) pad iROW.

Ltac pad_cases :=
  unfold pad_eval, pad_sweep, do_channel, release_pad, midi_send,
    set_active, set_curAmplitude, velocitySensitive;
  cbn [negb fst snd active note minAmplitude unused1 curAmplitude unused2];
  repeat case_match; cbn [fst snd active note minAmplitude unused1
                          curAmplitude unused2]; try done.

(** The fields a pad is configured with are never written. *)
Definition same_config (p q : pad_t) : Prop :=
  note q = note p /\ minAmplitude q = minAmplitude p /\
  unused1 q = unused1 p /\ unused2 q = unused2 p.

(** The pad of a row after a whole cycle. *)
Definition pad_cycle (inp : inputs) (edge : bool) (iROW : nat) (pad : pad_t)
    : pad_t * list midi_msg :=
  let p1 := pad_sweep edge pad in
  let p2 := pad_eval inp iROW p1.1 in
  (p2.1, p1.2 ++ p2.2).

(** A cycle with the pedal up, sample [v] on the first input and silence
    on the others. *)
Definition cycle_A0 (v : Z) : inputs :=
  mk_inputs true (fun pin => match pin with A0 => v | _ => 0%Z end).

(** The messages of row 0 evaluated alone, cycle by cycle. *)
Fixpoint pad_run (ins : list inputs) (pad : pad_t) : list (list midi_msg) :=
  match ins with
  | [] => []
  | inp :: rest =>
      let r := pad_eval inp 0 pad in
      r.2 :: pad_run rest r.1
  end.

(** The states of the sketch: the initial one, and those that [loop] makes
    from them when every sample is a ten-bit conversion. *)
Definition adc_inputs (inp : inputs) : Prop :=
  forall pin, adc_range (analogRead inp pin).

Inductive reachable : state -> Prop :=
  | reach_init : reachable init_state
  | reach_loop (inp : inputs) (st : state) :
      reachable st -> adc_inputs inp -> reachable (loop inp st).1.

Definition floor_ok (pad : pad_t) : Prop :=
  (minAmplitude pad <= curAmplitude pad)%Z.

Definition msg_eqb (m m' : midi_msg) : bool :=
  (status m =? status m')%Z && (pitch m =? pitch m')%Z &&
  (velocity m =? velocity m')%Z.

(** How many times message [m] was written. *)
Fixpoint count (m : midi_msg) (l : list midi_msg) : nat :=
  match l with
  | [] => 0
  | x :: rest => (if msg_eqb m x then 1 else 0) + count m rest
  end.

(** The notes of the deployed column, row by row. *)
Definition column_notes (st : state) : list (option Z) :=
  (fun i => note <$> pad_at st i) <$> seq 0 (ROWS (pads st)).

Definition active_at (st : state) (r : nat) : bool :=
  from_option active false (pad_at st r).

(** The active flag of row [r] at each point of a run where it can have
    been written: after the sweep and after the evaluation of each
    cycle. *)
Fixpoint active_trace (r : nat) (ins : list inputs) (st : state) : list bool :=
  match ins with
  | [] => []
  | inp :: rest =>
      active_at (pedal_stage inp st).1 r ::
      active_at (loop inp st).1 r ::
      active_trace r rest (loop inp st).1
  end.

(** Transitions from inactive to active, and from active to inactive, in
    a sequence of flags that starts from [prev]. *)
Fixpoint rises (prev : bool) (l : list bool) : nat :=
  match l with
  | [] => 0
  | b :: rest => (if negb prev && b then 1 else 0) + rises b rest
  end.

Fixpoint falls (prev : bool) (l : list bool) : nat :=
  match l with
  | [] => 0
  | b :: rest => (if prev && negb b then 1 else 0) + falls b rest
  end.

(** The bytes that a list of messages puts on the serial line. *)
Definition serial_bytes (l : list midi_msg) : list Z := flat_map wire l.

(** Every field of a pad within the width of its bit-field. *)
Definition pad_ok (pad : pad_t) : Prop :=
  (0 <= note pad < 128)%Z /\ (0 <= minAmplitude pad < 1024)%Z /\
  (0 <= unused1 pad < 128)%Z /\ (0 <= curAmplitude pad < 1024)%Z /\
  (0 <= unused2 pad < 1024)%Z.

(** A listener that follows the messages of pitch [n]: [a] tells whether
    the note sounds.  A note-on for a sounding note and a note-off for a
    silent one are refused, as is any other message of that pitch. *)
Fixpoint sounding (n : Z) (a : bool) (l : list midi_msg) : option bool :=
  match l with
  | [] => Some a
  | m :: rest =>
      if (pitch m =? n)%Z then
        if msg_eqb m (NoteOn n 0x7F) then
          if a then None else sounding n true rest
        else if msg_eqb m (NoteOff n) then
          if a then sounding n false rest else None
        else None
      else sounding n a rest
  end.

(** * Properties *)

(** ** Table access *)

Lemma get_set_pad (tbl : table) (r c r' c' : nat) (pad : pad_t) :
  get_pad (set_pad tbl r c pad) r' c' =
  if decide (r = r' ∧ c = c')
  then (fun _ => pad) <$> get_pad tbl r c
  else get_pad tbl r' c'.
Proof.
  unfold get_pad, set_pad, table in *.
  destruct (tbl !! r) as [row|] eqn:Hr.
  - destruct (decide (r = r')) as [->|Hne].
    + rewrite list_lookup_insert_eq by (by eapply lookup_lt_Some).
      destruct (decide (c = c')) as [->|Hc].
      * rewrite decide_True by done.
        destruct (row !! c') eqn:Hc.
        -- by rewrite list_lookup_insert_eq by (by eapply lookup_lt_Some).
        -- rewrite list_insert_ge by (by apply lookup_ge_None). by rewrite Hc.
      * rewrite decide_False by (by intros [_ ?]).
        rewrite Hr. by apply list_lookup_insert_ne.
    + rewrite decide_False by (by intros [? _]).
      by rewrite list_lookup_insert_ne by done.
  - case_decide as H; [|done]. destruct H as [<- <-]. by rewrite Hr.
Qed.

Lemma length_set_pad (tbl : table) (r c : nat) (pad : pad_t) :
  length (set_pad tbl r c pad) = length tbl.
Proof.
  unfold set_pad, table in *.
  destruct (tbl !! r); [apply length_insert | done].
Qed.

Lemma flat_map_ext_elem {A B} (g h : A -> list B) (l : list A) :
  (forall x, x ∈ l -> g x = h x) -> flat_map g l = flat_map h l.
Proof.
  induction l as [|x l IH]; intros Hgh; simpl; [done|].
  rewrite Hgh by apply list_elem_of_here.
  rewrite IH; [done|]. intros y Hy. by apply Hgh, list_elem_of_further.
Qed.

Section ForRows.
Context (c : nat) (f : nat -> pad_t -> pad_t * list midi_msg).

Lemma get_with_pad (tbl : table) (r r' c' : nat) :
  get_pad (with_pad r c (f r) tbl).1 r' c' =
  if decide (r = r' ∧ c = c')
  then (fun pad => (f r pad).1) <$> get_pad tbl r c
  else get_pad tbl r' c'.
Proof.
  unfold with_pad. destruct (get_pad tbl r c) as [pad|] eqn:Hp; simpl.
  - rewrite get_set_pad, Hp. done.
  - case_decide as H; [|done]. by destruct H as [<- <-].
Qed.

Lemma out_with_pad (tbl : table) (r : nat) :
  (with_pad r c (f r) tbl).2 =
  from_option (fun pad => (f r pad).2) [] (get_pad tbl r c).
Proof. unfold with_pad. by destruct (get_pad tbl r c). Qed.

Lemma length_with_pad (tbl : table) (r : nat) :
  length (with_pad r c (f r) tbl).1 = length tbl.
Proof.
  unfold with_pad. destruct (get_pad tbl r c); simpl; [|done].
  apply length_set_pad.
Qed.

(** The pads after a loop over distinct rows: each visited pad of the
    column went through its [f] once, every other pad is as before. *)
Lemma get_for_rows (rows : list nat) (tbl : table) (r c' : nat) :
  NoDup rows ->
  get_pad (for_rows rows (row_body c f) tbl).1 r c' =
  if decide (r ∈ rows ∧ c = c')
  then (fun pad => (f r pad).1) <$> get_pad tbl r c
  else get_pad tbl r c'.
Proof.
  intros Hnd. revert tbl.
  induction Hnd as [|i rows Hi Hnd IH]; intros tbl; cbn [for_rows fst snd].
  - rewrite decide_False; [done|]. intros [H _]. by apply elem_of_nil in H.
  - rewrite IH. unfold row_body. rewrite !get_with_pad.
    assert (Hcons : r ∈ i :: rows <-> i = r \/ r ∈ rows)
      by (rewrite elem_of_cons; intuition congruence).
    repeat case_decide; destruct_and?; simplify_eq; try done;
      exfalso; intuition (subst; eauto).
Qed.

(** The messages of a loop over distinct rows: those of each visited pad,
    computed from the pad as it was before the loop, in the order of the
    rows. *)
Lemma out_for_rows (rows : list nat) (tbl : table) :
  NoDup rows ->
  (for_rows rows (row_body c f) tbl).2 =
  flat_map (fun i => from_option (fun pad => (f i pad).2) [] (get_pad tbl i c))
    rows.
Proof.
  intros Hnd. revert tbl.
  induction Hnd as [|i rows Hi Hnd IH]; intros tbl; simpl; [done|].
  rewrite IH. unfold row_body at 1 2. rewrite out_with_pad. f_equal.
  apply flat_map_ext_elem. intros j Hj.
  rewrite get_with_pad, decide_False; [done|].
  by intros [-> _].
Qed.

Lemma length_for_rows (rows : list nat) (tbl : table) :
  length (for_rows rows (row_body c f) tbl).1 = length tbl.
Proof.
  revert tbl. induction rows as [|i rows IH]; intros tbl; simpl; [done|].
  rewrite IH. apply length_with_pad.
Qed.

(** Over all the rows of the table, as the loops of the sketch run. *)
Lemma get_all_rows (tbl : table) (r c' : nat) :
  get_pad (for_rows (seq 0 (length tbl)) (row_body c f) tbl).1 r c' =
  if decide (c = c')
  then (fun pad => (f r pad).1) <$> get_pad tbl r c
  else get_pad tbl r c'.
Proof.
  rewrite get_for_rows by apply NoDup_seq.
  destruct (decide (c = c')) as [<-|Hc].
  - case_decide as H; [done|].
    assert (length tbl <= r) as Hge.
    { destruct (decide (r < length tbl)) as [Hlt|]; [|lia].
      exfalso. apply H. split; [|done]. apply elem_of_seq. lia. }
    unfold get_pad, table in *. by rewrite (lookup_ge_None_2 tbl r Hge).
  - by rewrite decide_False by (by intros [_ ?]).
Qed.

Lemma out_all_rows (tbl : table) :
  (for_rows (seq 0 (length tbl)) (row_body c f) tbl).2 =
  flat_map (fun i => from_option (fun pad => (f i pad).2) [] (get_pad tbl i c))
    (seq 0 (length tbl)).
Proof. apply out_for_rows, NoDup_seq. Qed.
End ForRows.

(** ** One pad *)

Lemma release_pad_fst (pad : pad_t) : (release_pad pad).1 = set_active false pad.
Proof. destruct pad as [[] ? ? ? ? ?]; reflexivity. Qed.

Lemma release_pad_snd (pad : pad_t) :
  (release_pad pad).2 = if active pad then [NoteOff (note pad)] else [].
Proof. unfold release_pad. by destruct (active pad). Qed.

Lemma do_channel_config adc pedal pin pad iROW :
  same_config pad (do_channel adc pedal pin pad iROW).1.
Proof. unfold same_config. pad_cases. Qed.

Lemma release_pad_config pad : same_config pad (release_pad pad).1.
Proof. unfold same_config. pad_cases. Qed.

(** Every message of [do_channel] is a note-on of full velocity or a
    note-off, for the note of its pad. *)
Lemma do_channel_out adc pedal pin pad iROW :
  let r := do_channel adc pedal pin pad iROW in
  r.2 = [] \/
  (r.2 = [NoteOn (note pad) 0x7F] /\ active pad = false /\ active r.1 = true) \/
  (r.2 = [NoteOff (note pad)] /\ active pad = true /\ active r.1 = false
   /\ pedal = false).
Proof.
  cbv zeta. pad_cases; try (by left).
  - right; left. split; [reflexivity|]. by destruct (active pad).
  - right; right. repeat split. by destruct pedal.
  - right; right. repeat split. by destruct pedal.
Qed.

(** ** The two stages of a cycle *)

Lemma pedal_stage_pads (inp : inputs) (st : state) (r c' : nat) :
  get_pad (pads (pedal_stage inp st).1) r c' =
  if decide (COLUMN = c')
  then (fun pad => (pad_sweep (falling inp st) pad).1) <$> pad_at st r
  else get_pad (pads st) r c'.
Proof.
  unfold pedal_stage, falling, held_now, pad_at. cbn [pads fst snd].
  destruct (curPedalState st && _); cbn [fst snd pad_sweep].
  - apply (get_all_rows COLUMN (fun _ => release_pad)).
  - case_decide as H; [|done]. subst c'.
    by destruct (get_pad (pads st) r COLUMN).
Qed.

Lemma pedal_stage_out (inp : inputs) (st : state) :
  (pedal_stage inp st).2 =
  flat_map (fun i =>
              from_option (fun pad => (pad_sweep (falling inp st) pad).2) []
                (pad_at st i))
    (seq 0 (ROWS (pads st))).
Proof.
  unfold pedal_stage, falling, held_now, pad_at. cbn [pads fst snd].
  destruct (curPedalState st && _); cbn [fst snd pad_sweep].
  - apply (out_all_rows COLUMN (fun _ => release_pad)).
  - induction (seq 0 (ROWS (pads st))) as [|i l IH]; [done|]. simpl.
    rewrite <- IH. by destruct (get_pad (pads st) i COLUMN).
Qed.

Lemma pedal_stage_pedal (inp : inputs) (st : state) :
  curPedalState (pedal_stage inp st).1 = held_now inp.
Proof. reflexivity. Qed.

Lemma pedal_stage_rows (inp : inputs) (st : state) :
  ROWS (pads (pedal_stage inp st).1) = ROWS (pads st).
Proof.
  unfold pedal_stage, ROWS. cbn [pads fst snd].
  destruct (curPedalState st && _); [|done].
  apply (length_for_rows COLUMN (fun _ => release_pad)).
Qed.

Lemma channel_stage_pads (inp : inputs) (st : state) (r c' : nat) :
  get_pad (pads (channel_stage inp st).1) r c' =
  if decide (COLUMN = c')
  then (fun pad =>
          (do_channel (analogRead inp) (curPedalState st)
             (nth r pinsADC A0) pad r).1) <$> pad_at st r
  else get_pad (pads st) r c'.
Proof.
  unfold channel_stage, pad_at. cbn [pads fst snd].
  apply (get_all_rows COLUMN
           (fun i pad => do_channel (analogRead inp) (curPedalState st)
                           (nth i pinsADC A0) pad i)).
Qed.

Lemma channel_stage_out (inp : inputs) (st : state) :
  (channel_stage inp st).2 =
  flat_map (fun i =>
              from_option
                (fun pad =>
                   (do_channel (analogRead inp) (curPedalState st)
                      (nth i pinsADC A0) pad i).2) [] (pad_at st i))
    (seq 0 (ROWS (pads st))).
Proof.
  unfold channel_stage, pad_at. cbn [pads fst snd].
  apply (out_all_rows COLUMN
           (fun i pad => do_channel (analogRead inp) (curPedalState st)
                           (nth i pinsADC A0) pad i)).
Qed.

Lemma channel_stage_rows (inp : inputs) (st : state) :
  ROWS (pads (channel_stage inp st).1) = ROWS (pads st).
Proof.
  unfold channel_stage, ROWS. cbn [pads fst snd].
  apply (length_for_rows COLUMN
           (fun i pad => do_channel (analogRead inp) (curPedalState st)
                           (nth i pinsADC A0) pad i)).
Qed.

Lemma loop_pad_at (inp : inputs) (st : state) (r : nat) :
  pad_at (loop inp st).1 r =
  (fun pad => (pad_cycle inp (falling inp st) r pad).1) <$> pad_at st r.
Proof.
  unfold loop, pad_at. cbn [fst snd].
  rewrite channel_stage_pads, decide_True by done.
  unfold pad_at. rewrite pedal_stage_pads, decide_True by done.
  rewrite pedal_stage_pedal. fold (pad_at st r). by destruct (pad_at st r).
Qed.

Lemma loop_rows (inp : inputs) (st : state) :
  ROWS (pads (loop inp st).1) = ROWS (pads st).
Proof.
  unfold loop. cbn [fst snd]. by rewrite channel_stage_rows, pedal_stage_rows.
Qed.

Lemma loop_pedal (inp : inputs) (st : state) :
  curPedalState (loop inp st).1 = held_now inp.
Proof. reflexivity. Qed.

(** ** The envelope trigger *)

Lemma wrap10_id (v : Z) : adc_range v -> wrap10 v = v.
Proof. unfold adc_range, wrap10. intros H. apply Z.mod_small. lia. Qed.

(** C5: a sample strictly above the threshold turns an inactive pad
    active, stores the sample as the decay floor and sends exactly one
    note-on with the pad's note and velocity 0x7F; on a pad that is already
    active it sends nothing and changes nothing, so the same sample fed a
    second time never sends a second note-on. *)
Theorem do_channel_above_threshold
    (adc : analog_pin -> Z) (pedal pedal' : bool) (pin : analog_pin)
    (pad : pad_t) (iROW : nat) :
  (adc pin > minAmplitude pad)%Z ->
  adc_range (adc pin) ->
  let r := do_channel adc pedal pin pad iROW in
  (active pad = false ->
     active r.1 = true /\ curAmplitude r.1 = adc pin /\
     same_config pad r.1 /\ r.2 = [NoteOn (note pad) 0x7F]) /\
  (active pad = true -> r = (pad, [])) /\
  do_channel adc pedal' pin r.1 iROW = (r.1, []).
Proof.
  intros Hgt Hrange. cbv zeta.
  assert ((adc pin >? minAmplitude pad)%Z = true) as Hb by lia.
  unfold do_channel, same_config. rewrite Hb.
  destruct (active pad) eqn:Ha; cbn [negb fst snd];
    unfold set_curAmplitude, set_active, midi_send;
    cbn [active note minAmplitude unused1 curAmplitude unused2];
    rewrite ?Hb, ?Ha; cbn [negb]; rewrite ?wrap10_id by done; done.
Qed.

Lemma do_channel_above_threshold_witness :
  let pad := mk_pad false 53 30 0 30 0 in
  let r := do_channel (fun _ => 45%Z) false A0 pad 0 in
  (active pad = false ->
     active r.1 = true /\ curAmplitude r.1 = 45%Z /\
     same_config pad r.1 /\ r.2 = [NoteOn 53 0x7F]) /\
  (active pad = true -> r = (pad, [])) /\
  do_channel (fun _ => 45%Z) false A0 r.1 0 = (r.1, []).
Proof.
  apply (do_channel_above_threshold (fun _ => 45%Z) false false A0
           (mk_pad false 53 30 0 30 0) 0); unfold adc_range; simpl; lia.
Defined.

Lemma do_channel_no_tracking_eq adc pedal pin pad iROW :
  do_channel adc pedal pin pad iROW =
  do_channel_no_tracking adc pedal pin pad iROW.
Proof.
  destruct pad as [a n m u c u2].
  unfold do_channel, do_channel_no_tracking, set_curAmplitude, set_active,
    velocitySensitive.
  cbn [negb active note minAmplitude unused1 curAmplitude unused2].
  destruct (adc pin >? m)%Z eqn:Hgt; [by destruct a|].
  destruct a; [|done].
  assert ((adc pin <=? m)%Z = true) as Hle by lia.
  destruct (adc pin <? c)%Z;
    cbn [active note minAmplitude unused1 curAmplitude unused2];
    rewrite Hle; by destruct pedal.
Qed.

(** ** The pedal sweep *)

(** C3: in a cycle that sees the pedal go from pressed to released, the
    sweep sends one note-off for each active pad of the column and none for
    an inactive one, in row order and without looking at any sample, and
    leaves every pad of the column inactive with its other fields as they
    were; the evaluation that follows in that cycle sends no note-off, and
    leaves a pad active exactly when its sample is above its threshold.  In
    every other cycle (pedal pressed, or steady) the sweep changes no pad
    and sends nothing. *)
Theorem pedal_release_sweep (inp : inputs) (st : state) :
  let s1 := pedal_stage inp st in
  if curPedalState st && negb (held_now inp)
  then
    s1.2 = flat_map (fun i =>
                       match pad_at st i with
                       | Some pad =>
                           if active pad then [NoteOff (note pad)] else []
                       | None => []
                       end) (seq 0 (ROWS (pads st))) /\
    (forall r, pad_at s1.1 r = set_active false <$> pad_at st r) /\
    (forall r c, c <> COLUMN -> get_pad (pads s1.1) r c = get_pad (pads st) r c) /\
    Forall (fun m => velocity m = 0x7F%Z) (channel_stage inp s1.1).2 /\
    (forall r, active <$> pad_at (loop inp st).1 r =
               (fun pad => (analogRead inp (nth r pinsADC A0)
                            >? minAmplitude pad)%Z) <$> pad_at st r)
  else
    pads s1.1 = pads st /\ s1.2 = [].
Proof.
  cbv zeta. destruct (curPedalState st && negb (held_now inp)) eqn:Hedge.
  - assert (falling inp st = true) as Hf by done.
    split; [|split; [|split; [|split]]].
    + rewrite pedal_stage_out, Hf. apply flat_map_ext_elem. intros i _.
      destruct (pad_at st i) as [pad|]; [|done]. apply release_pad_snd.
    + intros r. unfold pad_at at 1.
      rewrite pedal_stage_pads, decide_True, Hf by done.
      destruct (pad_at st r) as [pad|]; [|done]. simpl.
      by rewrite release_pad_fst.
    + intros r c Hc. by rewrite pedal_stage_pads, decide_False.
    + rewrite channel_stage_out. apply Forall_flat_map, Forall_forall.
      intros i _. destruct (pad_at _ i) as [pad|] eqn:Hp; [|by constructor].
      cbn [from_option].
      destruct (do_channel_out (analogRead inp)
                  (curPedalState (pedal_stage inp st).1)
                  (nth i pinsADC A0) pad i) as [->|[[-> _]|(_ & Ha & _)]].
      * constructor.
      * by repeat constructor.
      * exfalso. unfold pad_at in Hp.
        rewrite pedal_stage_pads, decide_True, Hf in Hp by done.
        destruct (pad_at st i) as [q|]; [|done]. simpl in Hp.
        rewrite release_pad_fst in Hp. by simplify_eq.
    + intros r. rewrite loop_pad_at, Hf.
      destruct (pad_at st r) as [pad|]; [|done].
      cbn [fmap option_fmap option_map]. f_equal.
      unfold pad_cycle, pad_eval, pad_sweep. cbn [fst snd].
      rewrite do_channel_no_tracking_eq, release_pad_fst.
      unfold do_channel_no_tracking, set_active.
      cbn [active minAmplitude negb]. by case_match.
  - unfold pedal_stage, held_now in *. cbn [fst snd pads]. by rewrite Hedge.
Qed.

(** ** The poll cycle *)

(** C7: [loop] first reads the pedal, runs the sweep against the stored
    pedal state and stores the new one; then it evaluates each row once, in
    ascending order, with the pedal state just stored, on the pad as the
    sweep left it.  The messages of a cycle are those of the sweep followed
    by those of rows 0, 1, ... in that order. *)
Theorem loop_order (inp : inputs) (st : state) :
  let s1 := (pedal_stage inp st).1 in
  curPedalState s1 = held_now inp /\
  (loop inp st).2 =
    (pedal_stage inp st).2 ++
    flat_map (fun i =>
                match pad_at s1 i with
                | Some pad =>
                    (do_channel (analogRead inp) (held_now inp)
                       (nth i pinsADC A0) pad i).2
                | None => []
                end) (seq 0 (ROWS (pads st))) /\
  (pedal_stage inp st).2 =
    flat_map (fun i =>
                match pad_at st i with
                | Some pad => (pad_sweep (falling inp st) pad).2
                | None => []
                end) (seq 0 (ROWS (pads st))) /\
  (forall r,
     pad_at (loop inp st).1 r =
     (fun pad => (do_channel (analogRead inp) (held_now inp)
                    (nth r pinsADC A0) pad r).1) <$> pad_at s1 r) /\
  curPedalState (loop inp st).1 = held_now inp.
Proof.
  cbv zeta. split; [reflexivity|]. split; [|split; [|split; [|reflexivity]]].
  - unfold loop. cbn [fst snd]. f_equal.
    rewrite channel_stage_out, pedal_stage_rows, pedal_stage_pedal.
    apply flat_map_ext_elem. intros i _. by destruct (pad_at _ i).
  - rewrite pedal_stage_out. apply flat_map_ext_elem. intros i _.
    by destruct (pad_at st i).
  - intros r. unfold loop, pad_at at 1. cbn [fst snd].
    by rewrite channel_stage_pads, decide_True, pedal_stage_pedal.
Qed.

(** C6: row 0 of the deployed column has note 53 and threshold 30.  With
    the pedal never pressed and the samples 10, 45, 45, 5, 5 on its input
    (the other inputs silent), the sketch sends a note-on for 53 at full
    velocity in the second cycle, a note-off for 53 in the fourth, and
    nothing in the other three; the pad taken alone does the same. *)
Theorem scenario_53 :
  pad_at init_state 0 = Some (mk_pad false 53 30 0 30 0) /\
  (run (map cycle_A0 [10; 45; 45; 5; 5]%Z) init_state).2 =
    [ []; [NoteOn 53 0x7F]; []; [NoteOff 53]; [] ] /\
  pad_run (map cycle_A0 [10; 45; 45; 5; 5]%Z) (mk_pad false 53 30 0 30 0) =
    [ []; [NoteOn 53 0x7F]; []; [NoteOff 53]; [] ].
Proof. repeat split; vm_compute; reflexivity. Qed.

(** The same pad with the pedal pressed in the third cycle and released in
    the fourth: the note-off comes in the fourth cycle, from the sweep. *)
Example held_scenario :
  let ins := [ mk_inputs true (fun _ => 10%Z); mk_inputs true (fun _ => 45%Z);
               mk_inputs false (fun _ => 5%Z); mk_inputs true (fun _ => 5%Z) ] in
  let tbl := [[mk_pad false 53 30 0 30 0]] in
  (run ins (mk_state tbl false false)).2 =
    [ []; [NoteOn 53 0x7F]; []; [NoteOff 53] ] /\
  (pedal_stage (mk_inputs true (fun _ => 5%Z))
     (run (take 3 ins) (mk_state tbl false false)).1).2 = [NoteOff 53].
Proof. split; vm_compute; reflexivity. Qed.

(** ** What a cycle leaves alone *)

Lemma pad_cycle_config inp edge iROW pad :
  same_config pad (pad_cycle inp edge iROW pad).1.
Proof.
  unfold pad_cycle, pad_eval, pad_sweep. cbn [fst snd].
  destruct edge; [|apply do_channel_config].
  pose proof (release_pad_config pad) as (H1 & H2 & H3 & H4).
  pose proof (do_channel_config (analogRead inp) (held_now inp)
                (nth iROW pinsADC A0) (release_pad pad).1 iROW)
    as (G1 & G2 & G3 & G4).
  unfold same_config. by rewrite G1, G2, G3, G4.
Qed.

Lemma loop_get_pad (inp : inputs) (st : state) (r c : nat) :
  get_pad (pads (loop inp st).1) r c =
  if decide (COLUMN = c)
  then (fun pad => (pad_cycle inp (falling inp st) r pad).1) <$> pad_at st r
  else get_pad (pads st) r c.
Proof.
  case_decide as Hc.
  - subst c. apply loop_pad_at.
  - unfold loop. cbn [fst snd].
    rewrite channel_stage_pads, decide_False by done.
    by rewrite pedal_stage_pads, decide_False.
Qed.

(** A pad of the table after a run has the configuration it had before. *)
Lemma run_config (ins : list inputs) (st : state) (r c : nat) (pad' : pad_t) :
  get_pad (pads (run ins st).1) r c = Some pad' ->
  exists pad, get_pad (pads st) r c = Some pad /\ same_config pad pad'.
Proof.
  revert st pad'. induction ins as [|inp ins IH]; intros st pad' Hp.
  - exists pad'. by split.
  - cbn [run fst snd] in Hp. apply IH in Hp as (q & Hq & Hqc).
    rewrite loop_get_pad in Hq. case_decide as Hc.
    + subst c. fold (pad_at st r). destruct (pad_at st r) as [pad|]; [|done].
      exists pad. split; [done|]. simpl in Hq. simplify_eq.
      pose proof (pad_cycle_config inp (falling inp st) r pad)
        as (H1 & H2 & H3 & H4).
      destruct Hqc as (G1 & G2 & G3 & G4).
      unfold same_config. by rewrite G1, G2, G3, G4.
    + by exists q.
Qed.

(** Pads outside the deployed column are never written. *)
Lemma run_other_column (ins : list inputs) (st : state) (r c : nat) :
  c <> COLUMN -> get_pad (pads (run ins st).1) r c = get_pad (pads st) r c.
Proof.
  intros Hc. revert st. induction ins as [|inp ins IH]; intros st; [done|].
  cbn [run fst snd]. rewrite IH, loop_get_pad. by rewrite decide_False.
Qed.

(** C9: evaluating the pad of one row leaves every other pad of the table
    as it was, leaves the note, the threshold and the unused fields of the
    evaluated pad as they were, and computes its result from that pad
    alone; and no run of the sketch ever changes the note or the threshold
    of any pad. *)
Theorem channel_eval_frame
    (adc : analog_pin -> Z) (pedal : bool) (iROW : nat) (tbl tbl2 : table)
    (ins : list inputs) (st : state) :
  let res := channel_body adc pedal iROW tbl in
  (forall r c, r <> iROW \/ c <> COLUMN ->
     get_pad res.1 r c = get_pad tbl r c) /\
  (forall pad', get_pad res.1 iROW COLUMN = Some pad' ->
     exists pad, get_pad tbl iROW COLUMN = Some pad /\ same_config pad pad') /\
  (get_pad tbl2 iROW COLUMN = get_pad tbl iROW COLUMN ->
     (channel_body adc pedal iROW tbl2).2 = res.2 /\
     get_pad (channel_body adc pedal iROW tbl2).1 iROW COLUMN =
       get_pad res.1 iROW COLUMN) /\
  (forall r c pad', get_pad (pads (run ins st).1) r c = Some pad' ->
     exists pad, get_pad (pads st) r c = Some pad /\
                 note pad' = note pad /\ minAmplitude pad' = minAmplitude pad).
Proof.
  cbv zeta. unfold channel_body.
  set (f := fun i pad => do_channel adc pedal (nth i pinsADC A0) pad i).
  change (fun pad => do_channel adc pedal (nth iROW pinsADC A0) pad iROW)
    with (f iROW).
  split; [|split; [|split]].
  - intros r c Hne. rewrite get_with_pad, decide_False; [done|].
    intros [-> <-]. by destruct Hne.
  - intros pad' Hp. rewrite get_with_pad, decide_True in Hp by done.
    destruct (get_pad tbl iROW COLUMN) as [pad|]; [|done].
    exists pad. split; [done|]. simpl in Hp. simplify_eq.
    apply do_channel_config.
  - intros Heq. rewrite !out_with_pad, !get_with_pad, !decide_True by done.
    by rewrite Heq.
  - intros r c pad' Hp. apply run_config in Hp as (pad & Hpad & Hn & Hm & _).
    by exists pad.
Qed.

Lemma channel_eval_frame_witness :
  get_pad (channel_body (fun _ => 45%Z) false 0 pads_init).1 1 0 =
  get_pad pads_init 1 0.
Proof.
  apply (proj1 (channel_eval_frame (fun _ => 45%Z) false 0 pads_init
                  pads_init [] init_state) 1 0).
  left. lia.
Defined.

(** ** Pitches on the wire *)

Lemma pad_cycle_pitch inp edge iROW pad m :
  m ∈ (pad_cycle inp edge iROW pad).2 -> pitch m = note pad.
Proof.
  unfold pad_cycle, pad_eval, pad_sweep. cbn [fst snd].
  rewrite elem_of_app. intros [Hm|Hm].
  - destruct edge; [|by apply elem_of_nil in Hm].
    rewrite release_pad_snd in Hm. destruct (active pad).
    + apply list_elem_of_singleton in Hm. by subst m.
    + by apply elem_of_nil in Hm.
  - assert (note (if edge then release_pad pad else (pad, [])).1 = note pad)
      as Hn by (destruct edge; [apply release_pad_config|done]).
    rewrite <- Hn.
    destruct (do_channel_out (analogRead inp) (held_now inp)
                (nth iROW pinsADC A0)
                (if edge then release_pad pad else (pad, [])).1 iROW)
      as [H|[[H _]|[H _]]]; rewrite H in Hm.
    + by apply elem_of_nil in Hm.
    + apply list_elem_of_singleton in Hm. by subst m.
    + apply list_elem_of_singleton in Hm. by subst m.
Qed.

Lemma elem_of_flat_map {A B} (g : A -> list B) (l : list A) (y : B) :
  y ∈ flat_map g l <-> exists x, x ∈ l /\ y ∈ g x.
Proof.
  induction l as [|a l IH]; simpl.
  - rewrite elem_of_nil. split; [done|].
    intros (x & Hx & _). by apply elem_of_nil in Hx.
  - rewrite elem_of_app, IH. split.
    + intros [H|(x & Hx & Hy)].
      * exists a. split; [apply list_elem_of_here|done].
      * exists x. split; [by apply list_elem_of_further|done].
    + intros (x & Hx & Hy). apply elem_of_cons in Hx as [->|Hx]; [by left|].
      right. by exists x.
Qed.

(** The messages of a cycle, row by row. *)
Lemma loop_out_rows (inp : inputs) (st : state) (m : midi_msg) :
  m ∈ (loop inp st).2 ->
  exists r pad, pad_at st r = Some pad /\
                m ∈ (pad_cycle inp (falling inp st) r pad).2.
Proof.
  unfold loop. cbn [fst snd]. rewrite elem_of_app.
  rewrite pedal_stage_out, channel_stage_out, pedal_stage_rows,
    pedal_stage_pedal, !elem_of_flat_map.
  intros [(i & _ & Hm)|(i & _ & Hm)].
  - destruct (pad_at st i) as [pad|] eqn:Hp; [|by apply elem_of_nil in Hm].
    exists i, pad. split; [done|]. unfold pad_cycle. cbn [fst snd].
    apply elem_of_app. by left.
  - unfold pad_at at 1 in Hm.
    rewrite pedal_stage_pads, decide_True in Hm by done.
    destruct (pad_at st i) as [pad|] eqn:Hp; [|by apply elem_of_nil in Hm].
    exists i, pad. split; [done|]. unfold pad_cycle. cbn [fst snd].
    apply elem_of_app. by right.
Qed.

Lemma run_out_pitch (ins : list inputs) (st : state) (m : midi_msg) :
  m ∈ serial (run ins st).2 ->
  exists r pad, pad_at st r = Some pad /\ pitch m = note pad.
Proof.
  revert st. induction ins as [|inp ins IH]; intros st.
  - intros H. by apply elem_of_nil in H.
  - cbn [run fst snd serial concat]. rewrite elem_of_app. intros [Hm|Hm].
    + apply loop_out_rows in Hm as (r & pad & Hp & Hm).
      exists r, pad. split; [done|]. by eapply pad_cycle_pitch.
    + apply IH in Hm as (r & q & Hq & Hm).
      rewrite loop_pad_at in Hq.
      destruct (pad_at st r) as [pad|] eqn:Hp; [|done].
      exists r, pad. split; [done|]. simpl in Hq. simplify_eq.
      rewrite Hm. apply pad_cycle_config.
Qed.

Lemma init_column_notes (r : nat) (pad : pad_t) :
  pad_at init_state r = Some pad -> note pad <> 0%Z.
Proof.
  intros H.
  do 16 (destruct r as [|r]; [vm_compute in H; by simplify_eq|]).
  vm_compute in H. by destruct r.
Qed.

(** C1: in every run of the sketch from its initial state, whatever the
    samples and the pedal readings of its cycles, a pad of the table whose
    note is 0 is inactive at the end of every cycle and after the sweep of
    every cycle, and no message of pitch 0 is ever written.  The sketch
    gets this from the table: the pads of note 0 all lie outside the
    deployed column ([ARDUINO_NUMBER] 0), and [loop] evaluates only that
    column. *)
Theorem note_zero_never_sounds (ins : list inputs) (inp : inputs) :
  (forall r c pad,
     get_pad (pads (run ins init_state).1) r c = Some pad ->
     note pad = 0%Z -> active pad = false /\ c <> COLUMN) /\
  (forall r c pad,
     get_pad (pads (pedal_stage inp (run ins init_state).1).1) r c = Some pad ->
     note pad = 0%Z -> active pad = false) /\
  Forall (fun m => pitch m <> 0%Z) (serial (run ins init_state).2).
Proof.
  assert (forall r c pad,
            get_pad (pads (run ins init_state).1) r c = Some pad ->
            note pad = 0%Z -> active pad = false /\ c <> COLUMN) as Hend.
  { intros r c pad Hp Hn.
    destruct (decide (c = COLUMN)) as [->|Hc].
    - exfalso. apply run_config in Hp as (q & Hq & Hqn & _).
      apply (init_column_notes r q Hq). congruence.
    - split; [|done]. rewrite run_other_column in Hp by done.
      clear -Hp. unfold get_pad in Hp.
      destruct (pads init_state !! r) as [row|] eqn:Hr; [|done].
      assert (Forall (Forall (fun q => active q = false)) (pads init_state))
        as Hall by (vm_compute; repeat constructor).
      rewrite Forall_lookup in Hall. specialize (Hall r row Hr).
      rewrite Forall_lookup in Hall. by apply (Hall c). }
  split; [exact Hend|]. split.
  - intros r c pad. rewrite pedal_stage_pads. case_decide as Hc.
    + subst c. destruct (pad_at _ r) as [q|] eqn:Hq; [|done].
      intros [= <-] Hn. exfalso.
      assert (note (pad_sweep (falling inp (run ins init_state).1) q).1
              = note q) as Hnq
        by (unfold pad_sweep; destruct (falling _ _);
            [apply release_pad_config|done]).
      rewrite Hnq in Hn. by destruct (Hend r COLUMN q Hq Hn).
    + intros Hp Hn. by destruct (Hend r c pad Hp Hn).
  - apply Forall_forall. intros m Hm.
    apply run_out_pitch in Hm as (r & pad & Hp & ->).
    by eapply init_column_notes.
Qed.

Lemma note_zero_never_sounds_witness :
  let ins := [mk_inputs true (fun _ => 45%Z); mk_inputs false (fun _ => 45%Z)] in
  get_pad (pads (run ins init_state).1) 15 1 = Some (mk_pad false 0 30 0 30 0) /\
  active (mk_pad false 0 30 0 30 0) = false.
Proof.
  split; [reflexivity|].
  apply (proj1 (note_zero_never_sounds
                  [mk_inputs true (fun _ => 45%Z);
                   mk_inputs false (fun _ => 45%Z)]
                  (mk_inputs true (fun _ => 45%Z))) 15 1
           (mk_pad false 0 30 0 30 0) eq_refl eq_refl).
Defined.

(** [do_channel] itself does not look at the note of its pad: called on a
    pad of note 0, which [loop] never does, it would trigger like on any
    other. *)
Remark do_channel_ignores_note :
  do_channel (fun _ => 45%Z) false A0 (mk_pad false 0 30 0 30 0) 0 =
    (mk_pad true 0 30 0 45 0, [NoteOn 0 0x7F]).
Proof. reflexivity. Qed.

(** ** The decay floor *)

Lemma release_pad_floor pad : floor_ok pad -> floor_ok (release_pad pad).1.
Proof. rewrite release_pad_fst. by unfold floor_ok. Qed.

Lemma do_channel_floor adc pedal pin pad iROW :
  adc_range (adc pin) -> floor_ok pad ->
  floor_ok (do_channel adc pedal pin pad iROW).1.
Proof.
  intros Hr Hf. rewrite do_channel_no_tracking_eq.
  unfold do_channel_no_tracking, floor_ok in *.
  destruct (adc pin >? minAmplitude pad)%Z eqn:Hgt.
  - destruct (active pad); cbn [negb fst]; [done|].
    unfold set_curAmplitude, set_active. cbn. rewrite wrap10_id by done. lia.
  - destruct (active pad); [|done].
    assert ((adc pin <=? minAmplitude pad)%Z = true) as -> by lia.
    destruct pedal; cbn; lia.
Qed.

Lemma reachable_floor (st : state) :
  reachable st -> forall r pad, pad_at st r = Some pad -> floor_ok pad.
Proof.
  induction 1 as [|inp st Hst IH Hadc]; intros r pad Hp.
  - unfold pad_at, get_pad in Hp.
    destruct (pads init_state !! r) as [row|] eqn:Hr; [|done].
    assert (Forall (Forall floor_ok) (pads init_state)) as Hall
      by (vm_compute; repeat constructor; discriminate).
    rewrite Forall_lookup in Hall. specialize (Hall r row Hr).
    rewrite Forall_lookup in Hall. by apply (Hall COLUMN).
  - rewrite loop_pad_at in Hp.
    destruct (pad_at st r) as [q|] eqn:Hq; [|done].
    simpl in Hp. simplify_eq. unfold pad_cycle, pad_eval. cbn [fst].
    apply do_channel_floor; [apply Hadc|].
    unfold pad_sweep. destruct (falling inp st); [|by eapply IH].
    apply release_pad_floor. by eapply IH.
Qed.

(** C8: take any state the sketch can be in and any cycle run from it, and
    the pad of a row at the moment it is evaluated in that cycle.  Its
    decay floor is the one the previous cycle left (the sweep does not
    write it).  If the pad is active before and after the evaluation, its
    decay floor does not increase; if the evaluation activates it, the new
    decay floor is the sample.  On an inactive pad the messages, the new
    active flag and, on activation, the whole new pad do not depend on the
    old decay floor. *)
Theorem decay_floor_only_decreases
    (inp : inputs) (st : state) (r : nat) (pad0 : pad_t) (c : Z) :
  reachable st -> adc_inputs inp -> pad_at st r = Some pad0 ->
  let pad := (pad_sweep (falling inp st) pad0).1 in
  let res := pad_eval inp r pad in
  pad_at (pedal_stage inp st).1 r = Some pad /\
  pad_at (loop inp st).1 r = Some res.1 /\
  curAmplitude pad = curAmplitude pad0 /\
  (active pad = true -> active res.1 = true ->
     (curAmplitude res.1 <= curAmplitude pad)%Z) /\
  (active pad = false -> active res.1 = true ->
     curAmplitude res.1 = analogRead inp (nth r pinsADC A0)) /\
  (active pad = false ->
     let res' := pad_eval inp r (set_curAmplitude c pad) in
     res'.2 = res.2 /\ active res'.1 = active res.1 /\
     (active res.1 = true -> res'.1 = res.1)).
Proof.
  intros Hst Hadc Hp. cbv zeta.
  pose proof (reachable_floor st Hst r pad0 Hp) as Hf0.
  set (pad := (pad_sweep (falling inp st) pad0).1).
  assert (floor_ok pad) as Hf.
  { unfold pad, pad_sweep. destruct (falling inp st); [|done].
    by apply release_pad_floor. }
  assert (curAmplitude pad = curAmplitude pad0) as Hcur.
  { unfold pad, pad_sweep. destruct (falling inp st); [|done].
    by rewrite release_pad_fst. }
  split; [|split; [|split; [done|]]].
  - unfold pad_at at 1. by rewrite pedal_stage_pads, decide_True, Hp.
  - by rewrite loop_pad_at, Hp.
  - specialize (Hadc (nth r pinsADC A0)). clearbody pad. clear Hcur Hp Hf0.
    unfold pad_eval. rewrite !do_channel_no_tracking_eq.
    unfold do_channel_no_tracking, floor_ok in *.
    destruct pad as [a n m u cur u2].
    unfold set_curAmplitude, set_active.
    cbn [active note minAmplitude unused1 curAmplitude unused2] in *.
    destruct (analogRead inp (nth r pinsADC A0) >? m)%Z eqn:Hgt.
    + destruct a; cbn [negb fst snd active curAmplitude];
        rewrite ?wrap10_id by done; repeat split; intros; try done; lia.
    + destruct a; cbn [negb fst snd active curAmplitude]; [|by repeat split].
      assert ((analogRead inp (nth r pinsADC A0) <=? m)%Z = true) as -> by lia.
      destruct (held_now inp); cbn [negb fst snd active curAmplitude];
        repeat split; intros; try done; lia.
Qed.

Lemma decay_floor_only_decreases_witness :
  let st := (loop (cycle_A0 45) init_state).1 in
  let inp := mk_inputs false (fun _ => 5%Z) in
  let pad := mk_pad true 53 30 0 45 0 in
  pad_at st 0 = Some pad /\
  active (pad_eval inp 0 pad).1 = true /\
  (curAmplitude (pad_eval inp 0 pad).1 <= curAmplitude pad)%Z.
Proof.
  split; [reflexivity|]. split; [reflexivity|].
  assert (reachable (loop (cycle_A0 45) init_state).1) as Hst.
  { apply reach_loop; [apply reach_init|].
    intros []; unfold adc_range; simpl; lia. }
  assert (adc_inputs (mk_inputs false (fun _ => 5%Z))) as Hin.
  { intros pin. unfold adc_range. simpl. lia. }
  apply (decay_floor_only_decreases (mk_inputs false (fun _ => 5%Z))
           (loop (cycle_A0 45) init_state).1 0
           (mk_pad true 53 30 0 45 0) 0 Hst Hin eq_refl); reflexivity.
Defined.

(** C10: when an active pad is evaluated with a sample at or below its
    threshold, the decay floor it is left with is the threshold itself,
    whatever the pedal state; the statement that tracks the minimum is
    overwritten in the same call, so [do_channel] computes the same pad and
    the same messages with that statement removed; and between cycles no
    pad of the deployed column has a decay floor below its threshold. *)
Theorem clamp_overwrites_tracking
    (adc : analog_pin -> Z) (pedal : bool) (pin : analog_pin)
    (pad : pad_t) (iROW : nat) (st : state) (r : nat) (q : pad_t) :
  do_channel adc pedal pin pad iROW =
    do_channel_no_tracking adc pedal pin pad iROW /\
  (active pad = true -> (adc pin <= minAmplitude pad)%Z ->
   curAmplitude (do_channel adc pedal pin pad iROW).1 = minAmplitude pad) /\
  (reachable st -> pad_at st r = Some q ->
   (minAmplitude q <= curAmplitude q)%Z).
Proof.
  split; [apply do_channel_no_tracking_eq|]. split.
  - intros Ha Hle. rewrite do_channel_no_tracking_eq.
    unfold do_channel_no_tracking.
    assert ((adc pin >? minAmplitude pad)%Z = false) as -> by lia.
    assert ((adc pin <=? minAmplitude pad)%Z = true) as -> by lia.
    rewrite Ha. by destruct pedal.
  - intros Hst Hq. by apply (reachable_floor st Hst r q).
Qed.

Lemma clamp_overwrites_tracking_witness :
  curAmplitude
    (do_channel (fun _ => 5%Z) true A0 (mk_pad true 53 30 0 45 0) 0).1 = 30%Z.
Proof.
  apply (proj1 (proj2 (clamp_overwrites_tracking (fun _ => 5%Z) true A0
                         (mk_pad true 53 30 0 45 0) 0 init_state 0
                         (mk_pad false 53 30 0 30 0))));
    simpl; [reflexivity|lia].
Defined.

(** ** Holding notes with the pedal *)

Lemma pad_at_row (st : state) (r : nat) (pad : pad_t) :
  pad_at st r = Some pad -> r ∈ seq 0 (ROWS (pads st)).
Proof.
  unfold pad_at, get_pad, ROWS. intros H.
  destruct (pads st !! r) as [row|] eqn:Hr; [|done].
  apply elem_of_seq. apply lookup_lt_Some in Hr. lia.
Qed.

Lemma held_not_falling (inp : inputs) (st : state) :
  held_now inp = true -> falling inp st = false.
Proof. unfold falling. intros ->. by destruct (curPedalState st). Qed.

Lemma held_eval (inp : inputs) (iROW : nat) (pad : pad_t) :
  held_now inp = true -> active pad = true ->
  let res := pad_eval inp iROW pad in
  active res.1 = true /\ Forall (fun m => velocity m = 0x7F%Z) res.2.
Proof.
  intros Hh Ha. cbv zeta. unfold pad_eval. rewrite Hh.
  destruct (do_channel_out (analogRead inp) true (nth iROW pinsADC A0) pad iROW)
    as [H|[(H & H1 & H2)|(H & _ & _ & H3)]]; try done; try congruence.
  rewrite H. split; [|constructor].
  rewrite do_channel_no_tracking_eq. unfold do_channel_no_tracking.
  rewrite Ha. by repeat case_match.
Qed.

Lemma held_cycle_out (inp : inputs) (st : state) :
  held_now inp = true ->
  Forall (fun m => velocity m = 0x7F%Z) (loop inp st).2.
Proof.
  intros Hh. apply Forall_forall. intros m Hm.
  apply loop_out_rows in Hm as (r & pad & _ & Hm).
  rewrite held_not_falling in Hm by done.
  unfold pad_cycle, pad_sweep, pad_eval in Hm. cbn [fst snd app] in Hm.
  rewrite Hh in Hm.
  destruct (do_channel_out (analogRead inp) true (nth r pinsADC A0) pad r)
    as [H|[(H & _)|(H & _ & _ & H3)]]; try done; rewrite H in Hm.
  - by apply elem_of_nil in Hm.
  - apply list_elem_of_singleton in Hm. by subst m.
Qed.

Lemma held_run (ins : list inputs) (st : state) (r : nat) (pad : pad_t) :
  Forall (fun inp => held_now inp = true) ins ->
  pad_at st r = Some pad -> active pad = true ->
  (exists pad', pad_at (run ins st).1 r = Some pad' /\
                active pad' = true /\ note pad' = note pad) /\
  Forall (fun m => velocity m = 0x7F%Z) (serial (run ins st).2).
Proof.
  intros Hall. revert st pad.
  induction Hall as [|inp ins Hh Hall IH]; intros st pad Hp Ha.
  - split; [by exists pad|constructor].
  - cbn [run fst snd serial concat].
    pose proof (loop_pad_at inp st r) as Hl. rewrite Hp in Hl. simpl in Hl.
    rewrite held_not_falling in Hl by done.
    unfold pad_cycle, pad_sweep in Hl. cbn [fst snd] in Hl.
    destruct (held_eval inp r pad Hh Ha) as [Ha' _].
    destruct (IH _ _ Hl Ha') as [(pad' & Hp' & Hact & Hn) Hout].
    split.
    + exists pad'. split; [done|]. split; [done|]. rewrite Hn.
      apply do_channel_config.
    + apply Forall_app. split; [by apply held_cycle_out|done].
Qed.

Lemma held_run_pedal (ins : list inputs) (st : state) :
  Forall (fun inp => held_now inp = true) ins ->
  ins <> [] \/ curPedalState st = true ->
  curPedalState (run ins st).1 = true.
Proof.
  intros Hall. revert st.
  induction Hall as [|inp ins Hh Hall IH]; intros st Hor.
  - by destruct Hor.
  - cbn [run fst snd]. apply IH. right. by rewrite loop_pedal.
Qed.

(** C4: with the pedal pressed, evaluating an active pad with a sample at
    or below its threshold leaves it active and sends nothing.  Over any
    run of cycles that all read the pedal pressed, an active pad stays
    active and no note-off at all is sent.  When the next cycle reads the
    pedal released, the sweep of that cycle sends the note-off of the pad
    and leaves it inactive. *)
Theorem pedal_holds_note
    (ins : list inputs) (inp_rel : inputs) (st : state) (r : nat)
    (pad : pad_t) :
  Forall (fun inp => held_now inp = true) ins ->
  ins <> [] \/ curPedalState st = true ->
  pad_at st r = Some pad -> active pad = true ->
  held_now inp_rel = false ->
  let st' := (run ins st).1 in
  (forall adc pin i, (adc pin <= minAmplitude pad)%Z ->
     do_channel adc true pin pad i =
       (set_curAmplitude (minAmplitude pad) pad, [])) /\
  (exists pad', pad_at st' r = Some pad' /\ active pad' = true /\
                note pad' = note pad) /\
  Forall (fun m => velocity m = 0x7F%Z) (serial (run ins st).2) /\
  curPedalState st' = true /\
  NoteOff (note pad) ∈ (pedal_stage inp_rel st').2 /\
  (exists pad'', pad_at (pedal_stage inp_rel st').1 r = Some pad'' /\
                 active pad'' = false).
Proof.
  intros Hall Hor Hp Ha Hrel. cbv zeta.
  destruct (held_run ins st r pad Hall Hp Ha) as [(pad' & Hp' & Ha' & Hn) Hout].
  pose proof (held_run_pedal ins st Hall Hor) as Hped.
  assert (falling inp_rel (run ins st).1 = true) as Hf
    by (unfold falling; by rewrite Hped, Hrel).
  split; [|split; [by exists pad'|split; [done|split; [done|split]]]].
  - intros adc pin i Hle. rewrite do_channel_no_tracking_eq.
    unfold do_channel_no_tracking. rewrite Ha.
    assert ((adc pin >? minAmplitude pad)%Z = false) as -> by lia.
    by assert ((adc pin <=? minAmplitude pad)%Z = true) as -> by lia.
  - rewrite pedal_stage_out, Hf. apply elem_of_flat_map.
    exists r. split; [by eapply pad_at_row|].
    rewrite Hp'. cbn [from_option pad_sweep].
    rewrite release_pad_snd, Ha', Hn. apply list_elem_of_here.
  - exists (set_active false pad'). split; [|done].
    unfold pad_at at 1. rewrite pedal_stage_pads, decide_True, Hp', Hf by done.
    simpl. by rewrite release_pad_fst.
Qed.

Lemma pedal_holds_note_witness :
  let st := (loop (cycle_A0 45) init_state).1 in
  let pressed := mk_inputs false (fun _ => 5%Z) in
  let released := mk_inputs true (fun _ => 5%Z) in
  let st' := (run [pressed; pressed] st).1 in
  (exists pad', pad_at st' 0 = Some pad' /\ active pad' = true /\
                note pad' = 53%Z) /\
  NoteOff 53 ∈ (pedal_stage released st').2.
Proof.
  pose proof (pedal_holds_note
                [mk_inputs false (fun _ => 5%Z); mk_inputs false (fun _ => 5%Z)]
                (mk_inputs true (fun _ => 5%Z))
                (loop (cycle_A0 45) init_state).1 0
                (mk_pad true 53 30 0 45 0)) as H.
  destruct H as (_ & H2 & _ & _ & H5 & _).
  - repeat constructor.
  - left. discriminate.
  - reflexivity.
  - reflexivity.
  - reflexivity.
  - split; [exact H2|exact H5].
Defined.

(** ** One message per transition *)

Lemma msg_eqb_eq (m m' : midi_msg) : msg_eqb m m' = true <-> m = m'.
Proof.
  unfold msg_eqb. rewrite !andb_true_iff, !Z.eqb_eq.
  destruct m, m'; simpl. split; [intros [[-> ->] ->]; done|].
  intros H. by simplify_eq.
Qed.

Lemma count_app (m : midi_msg) (l1 l2 : list midi_msg) :
  count m (l1 ++ l2) = count m l1 + count m l2.
Proof. induction l1 as [|x l1 IH]; simpl; [done|]. rewrite IH. lia. Qed.

Lemma count_absent (m : midi_msg) (l : list midi_msg) :
  m ∉ l -> count m l = 0.
Proof.
  induction l as [|x l IH]; intros Hm; simpl; [done|].
  rewrite not_elem_of_cons in Hm. destruct Hm as [Hne Hm].
  rewrite IH by done. destruct (msg_eqb m x) eqn:He; [|done].
  by apply msg_eqb_eq in He.
Qed.

(** In the messages of a loop over distinct rows, those that only one row
    can have written are those of that row. *)
Lemma count_flat_map_row (m : midi_msg) (g : nat -> list midi_msg)
    (rows : list nat) (r : nat) :
  NoDup rows -> r ∈ rows ->
  (forall i, i ∈ rows -> i <> r -> m ∉ g i) ->
  count m (flat_map g rows) = count m (g r).
Proof.
  intros Hnd. induction Hnd as [|i rows Hi Hnd IH]; intros Hr Hg.
  - by apply elem_of_nil in Hr.
  - simpl. rewrite count_app.
    destruct (decide (i = r)) as [->|Hne].
    + assert (count m (flat_map g rows) = 0) as ->; [|lia].
      apply count_absent. rewrite elem_of_flat_map. intros (j & Hj & Hm).
      apply (Hg j); [by apply list_elem_of_further|by intros ->|done].
    + rewrite (count_absent m (g i))
        by (apply Hg; [apply list_elem_of_here|done]).
      apply IH.
      * apply elem_of_cons in Hr as [->|Hr]; done.
      * intros j Hj. apply Hg. by apply list_elem_of_further.
Qed.

Lemma column_notes_lookup (st : state) (r : nat) (pad : pad_t) :
  pad_at st r = Some pad -> column_notes st !! r = Some (Some (note pad)).
Proof.
  intros Hp. unfold column_notes. rewrite list_lookup_fmap.
  pose proof (pad_at_row st r pad Hp) as Hr. apply elem_of_seq in Hr.
  rewrite lookup_seq_lt by lia. simpl. by rewrite Hp.
Qed.

Lemma column_notes_inj (st : state) (i r : nat) (p q : pad_t) :
  NoDup (column_notes st) ->
  pad_at st i = Some p -> pad_at st r = Some q -> note p = note q -> i = r.
Proof.
  intros Hnd Hi Hr Hn.
  apply column_notes_lookup in Hi. apply column_notes_lookup in Hr.
  rewrite Hn in Hi. by eapply NoDup_lookup.
Qed.

Lemma loop_column_notes (inp : inputs) (st : state) :
  column_notes (loop inp st).1 = column_notes st.
Proof.
  unfold column_notes. rewrite loop_rows. apply list_fmap_ext.
  intros _ i _. rewrite loop_pad_at.
  destruct (pad_at st i) as [pad|]; [|done]. simpl. f_equal.
  apply pad_cycle_config.
Qed.

Lemma loop_count (inp : inputs) (st : state) (r : nat) (pad : pad_t)
    (m : midi_msg) :
  NoDup (column_notes st) -> pad_at st r = Some pad -> pitch m = note pad ->
  count m (loop inp st).2 = count m (pad_cycle inp (falling inp st) r pad).2.
Proof.
  intros Hnd Hp Hm.
  assert (forall i p, pad_at st i = Some p -> i <> r ->
                      m ∉ (pad_cycle inp (falling inp st) i p).2) as Hother.
  { intros i p Hi Hne Hin. apply pad_cycle_pitch in Hin.
    apply Hne. eapply column_notes_inj; [done..|congruence]. }
  unfold loop, pad_cycle in *. cbn [fst snd] in *. rewrite !count_app.
  rewrite pedal_stage_out, channel_stage_out, pedal_stage_rows,
    pedal_stage_pedal.
  pose proof (pad_at_row st r pad Hp) as Hr.
  f_equal.
  - rewrite (count_flat_map_row m _ _ r); [by rewrite Hp|apply NoDup_seq|done|].
    intros i _ Hne.
    destruct (pad_at st i) as [p|] eqn:Hi; [|apply not_elem_of_nil].
    intros Hin. apply (Hother i p Hi Hne), elem_of_app. by left.
  - rewrite (count_flat_map_row m _ _ r); [|apply NoDup_seq|done|].
    + unfold pad_at at 1. rewrite pedal_stage_pads, decide_True by done.
      by rewrite Hp.
    + intros i _ Hne. unfold pad_at at 1.
      rewrite pedal_stage_pads, decide_True by done.
      destruct (pad_at st i) as [p|] eqn:Hi; [|apply not_elem_of_nil].
      intros Hin. apply (Hother i p Hi Hne), elem_of_app. by right.
Qed.

Lemma midi_send_note (n v : Z) : midi_send 0x90 n v = [mk_msg 0x90 n v].
Proof. reflexivity. Qed.

Lemma pad_cycle_count (inp : inputs) (edge : bool) (iROW : nat) (pad : pad_t) :
  let p1 := (pad_sweep edge pad).1 in
  let res := pad_cycle inp edge iROW pad in
  count (NoteOn (note pad) 0x7F) res.2 =
    rises (active pad) [active p1; active res.1] /\
  count (NoteOff (note pad)) res.2 =
    falls (active pad) [active p1; active res.1].
Proof.
  cbv zeta. unfold pad_cycle, pad_eval, pad_sweep. cbn [fst snd].
  rewrite do_channel_no_tracking_eq.
  destruct pad as [a n m u c u2].
  unfold do_channel_no_tracking, release_pad, set_active, set_curAmplitude.
  rewrite !midi_send_note.
  destruct edge, a;
    cbn [fst snd negb active note minAmplitude unused1 curAmplitude unused2];
    rewrite ?midi_send_note;
    destruct (_ >? m)%Z; cbn [fst snd app active];
    try destruct (_ <=? m)%Z; try destruct (held_now inp);
    cbn [fst snd app active negb];
    unfold NoteOn, NoteOff; cbn [count rises falls]; unfold msg_eqb;
    cbn [status pitch velocity]; rewrite ?Z.eqb_refl; done.
Qed.

Lemma rises_cons2 (prev a b : bool) (t : list bool) :
  rises prev (a :: b :: t) = rises prev [a; b] + rises b t.
Proof. simpl. lia. Qed.

Lemma falls_cons2 (prev a b : bool) (t : list bool) :
  falls prev (a :: b :: t) = falls prev [a; b] + falls b t.
Proof. simpl. lia. Qed.

(** C2: in any run, from any state whose deployed column has pairwise
    distinct notes, the number of note-ons written for the note of a row is
    the number of times the active flag of that row went from false to
    true, and the number of note-offs written for it is the number of times
    the flag went from true to false. *)
Theorem one_message_per_transition
    (ins : list inputs) (st : state) (r : nat) (pad : pad_t) :
  NoDup (column_notes st) -> pad_at st r = Some pad ->
  count (NoteOn (note pad) 0x7F) (serial (run ins st).2) =
    rises (active pad) (active_trace r ins st) /\
  count (NoteOff (note pad)) (serial (run ins st).2) =
    falls (active pad) (active_trace r ins st).
Proof.
  revert st pad. induction ins as [|inp ins IH]; intros st pad Hnd Hp; [done|].
  cbn [run fst snd serial concat active_trace].
  rewrite !count_app, rises_cons2, falls_cons2.
  pose proof (loop_pad_at inp st r) as Hl. rewrite Hp in Hl.
  cbn [fmap option_fmap option_map] in Hl.
  assert (active_at (pedal_stage inp st).1 r =
          active (pad_sweep (falling inp st) pad).1) as ->.
  { unfold active_at, pad_at at 1.
    by rewrite pedal_stage_pads, decide_True, Hp. }
  assert (active_at (loop inp st).1 r =
          active (pad_cycle inp (falling inp st) r pad).1) as ->
    by (unfold active_at; by rewrite Hl).
  rewrite !(loop_count inp st r pad) by done.
  destruct (pad_cycle_count inp (falling inp st) r pad) as [-> ->].
  assert (note (pad_cycle inp (falling inp st) r pad).1 = note pad) as Hn
    by apply pad_cycle_config.
  destruct (IH (loop inp st).1 _ ltac:(by rewrite loop_column_notes) Hl)
    as [H1 H2].
  rewrite Hn in H1, H2. fold (serial (run ins (loop inp st).1).2).
  by rewrite H1, H2.
Qed.

Lemma one_message_per_transition_witness :
  let ins := map cycle_A0 [10; 45; 45; 5; 5; 60]%Z in
  count (NoteOn 53 0x7F) (serial (run ins init_state).2) = 2 /\
  count (NoteOff 53) (serial (run ins init_state).2) = 1.
Proof.
  apply (one_message_per_transition
           (map cycle_A0 [10; 45; 45; 5; 5; 60]%Z) init_state 0
           (mk_pad false 53 30 0 30 0)); [|reflexivity].
  apply (bool_decide_unpack (NoDup (column_notes init_state))).
  vm_compute. exact I.
Defined.

(** * Further properties of the sketch *)

(** ** The release path of [do_channel] *)

Lemma do_channel_quiet adc pedal pin pad iROW :
  (adc pin <= minAmplitude pad)%Z ->
  (active pad = true ->
     do_channel adc false pin pad iROW =
       (set_active false (set_curAmplitude (minAmplitude pad) pad),
        [NoteOff (note pad)])) /\
  (active pad = false -> do_channel adc pedal pin pad iROW = (pad, [])).
Proof.
  intros Hle. rewrite !do_channel_no_tracking_eq.
  unfold do_channel_no_tracking.
  assert ((adc pin >? minAmplitude pad)%Z = false) as -> by lia.
  assert ((adc pin <=? minAmplitude pad)%Z = true) as -> by lia.
  split; intros ->; reflexivity.
Qed.

(** X1: with the pedal up, a sample at or below the threshold turns an
    active pad inactive, leaves the threshold in its decay floor and sends
    exactly one note-off for its note; on an inactive pad such a sample
    changes nothing and sends nothing, whatever the pedal state. *)
Theorem do_channel_below_threshold
    (adc : analog_pin -> Z) (pedal : bool) (pin : analog_pin)
    (pad : pad_t) (iROW : nat) :
  (adc pin <= minAmplitude pad)%Z ->
  (active pad = true ->
     do_channel adc false pin pad iROW =
       (set_active false (set_curAmplitude (minAmplitude pad) pad),
        [NoteOff (note pad)])) /\
  (active pad = false -> do_channel adc pedal pin pad iROW = (pad, [])).
Proof. apply do_channel_quiet. Qed.

Lemma do_channel_below_threshold_witness :
  do_channel (fun _ => 5%Z) false A0 (mk_pad true 53 30 0 45 0) 0 =
    (mk_pad false 53 30 0 30 0, [NoteOff 53]).
Proof.
  apply (proj1 (do_channel_below_threshold (fun _ => 5%Z) false A0
                  (mk_pad true 53 30 0 45 0) 0 ltac:(simpl; lia))).
  reflexivity.
Defined.

(** ** What is written on the wire *)

(** The three outcomes of one evaluation. *)
Lemma do_channel_cases adc pedal pin pad iROW :
  let r := do_channel adc pedal pin pad iROW in
  (r.2 = [] /\ active r.1 = active pad) \/
  (r.2 = [NoteOn (note pad) 0x7F] /\ active pad = false /\ active r.1 = true) \/
  (r.2 = [NoteOff (note pad)] /\ active pad = true /\ active r.1 = false).
Proof.
  cbv zeta. rewrite do_channel_no_tracking_eq.
  destruct pad as [a n m u c u2].
  unfold do_channel_no_tracking, set_active, set_curAmplitude.
  cbn [active note minAmplitude unused1 curAmplitude unused2].
  destruct (adc pin >? m)%Z; destruct a; cbn [negb fst snd active];
    try (by left); try (right; left; by rewrite midi_send_note).
  destruct (adc pin <=? m)%Z; [|by left].
  destruct pedal; cbn [negb fst snd active]; [by left|].
  right; right. by rewrite midi_send_note.
Qed.

Lemma pad_cycle_msg inp edge iROW pad m :
  m ∈ (pad_cycle inp edge iROW pad).2 ->
  m = NoteOn (note pad) 0x7F \/ m = NoteOff (note pad).
Proof.
  unfold pad_cycle, pad_eval, pad_sweep. cbn [fst snd].
  rewrite elem_of_app. intros [Hm|Hm].
  - destruct edge; [|by apply elem_of_nil in Hm].
    rewrite release_pad_snd in Hm. destruct (active pad).
    + apply list_elem_of_singleton in Hm. by right.
    + by apply elem_of_nil in Hm.
  - assert (note (if edge then release_pad pad else (pad, [])).1 = note pad)
      as Hn by (destruct edge; [apply release_pad_config|done]).
    rewrite <- Hn.
    destruct (do_channel_cases (analogRead inp) (held_now inp)
                (nth iROW pinsADC A0)
                (if edge then release_pad pad else (pad, [])).1 iROW)
      as [[H _]|[[H _]|[H _]]]; rewrite H in Hm.
    + by apply elem_of_nil in Hm.
    + apply list_elem_of_singleton in Hm. by left.
    + apply list_elem_of_singleton in Hm. by right.
Qed.




(** ** Bit-field ranges *)

Lemma wrap10_range (v : Z) : (0 <= wrap10 v < 1024)%Z.
Proof. unfold wrap10. apply Z.mod_pos_bound. lia. Qed.

Lemma do_channel_ok adc pedal pin pad iROW :
  pad_ok pad -> pad_ok (do_channel adc pedal pin pad iROW).1.
Proof.
  rewrite do_channel_no_tracking_eq. destruct pad as [a n m u c u2].
  unfold pad_ok, do_channel_no_tracking, set_active, set_curAmplitude.
  cbn [active note minAmplitude unused1 curAmplitude unused2].
  intros (Hn & Hm & Hu & Hc & Hu2). pose proof (wrap10_range (adc pin)).
  destruct (adc pin >? m)%Z; destruct a;
    cbn [negb fst active note minAmplitude unused1 curAmplitude unused2];
    try done.
  destruct (adc pin <=? m)%Z; [|done].
  by destruct pedal.
Qed.

Lemma pad_cycle_ok inp edge iROW pad :
  pad_ok pad -> pad_ok (pad_cycle inp edge iROW pad).1.
Proof.
  intros Hok. unfold pad_cycle, pad_eval, pad_sweep. cbn [fst].
  apply do_channel_ok. destruct edge; [|done].
  rewrite release_pad_fst. by destruct pad.
Qed.

Lemma run_ok (ins : list inputs) (st : state) :
  (forall r c pad, get_pad (pads st) r c = Some pad -> pad_ok pad) ->
  forall r c pad, get_pad (pads (run ins st).1) r c = Some pad -> pad_ok pad.
Proof.
  revert st. induction ins as [|inp ins IH]; intros st Hst; [done|].
  cbn [run fst snd]. apply IH. intros r c pad.
  rewrite loop_get_pad. case_decide as Hc; [|apply Hst].
  destruct (pad_at st r) as [q|] eqn:Hq; [|done].
  intros [= <-]. apply pad_cycle_ok. by apply (Hst r COLUMN).
Qed.

Lemma init_ok (r c : nat) (pad : pad_t) :
  get_pad (pads init_state) r c = Some pad -> pad_ok pad.
Proof.
  unfold get_pad. intros Hp.
  destruct (pads init_state !! r) as [row|] eqn:Hr; [|done].
  assert (Forall (Forall pad_ok) (pads init_state)) as Hall
    by (vm_compute; repeat constructor; discriminate).
  rewrite Forall_lookup in Hall. specialize (Hall r row Hr).
  rewrite Forall_lookup in Hall. by apply (Hall c).
Qed.

(** X3: from power-up, whatever the inputs are (also samples outside the
    range of the converter), every field of every pad of the table stays
    within the width of its bit-field: the note in 0..127, the threshold
    and the decay floor in 0..1023. *)
Theorem fields_in_range (ins : list inputs) (r c : nat) (pad : pad_t) :
  get_pad (pads (run ins init_state).1) r c = Some pad -> pad_ok pad.
Proof. apply run_ok. apply init_ok. Qed.

Lemma fields_in_range_witness :
  pad_ok (mk_pad true 53 30 0 45 0).
Proof.
  apply (fields_in_range [cycle_A0 45] 0 0). reflexivity.
Defined.

(** ** The foot switch *)

Lemma run_led (ins : list inputs) (st : state) :
  led st = curPedalState st ->
  led (run ins st).1 = curPedalState (run ins st).1.
Proof.
  revert st. induction ins as [|inp ins IH]; intros st Hst; [done|].
  cbn [run fst snd]. apply IH.
  unfold loop, channel_stage, pedal_stage, checkFootSwitchOnD2.
  cbn [fst snd led curPedalState]. by destruct (digitalRead_D2 inp).
Qed.

(** X4: the pedal input is pulled up, so the stored pedal state after a
    cycle is the inverse of the level read on the pin in that cycle, and
    the LED is driven to the same value; from power-up the LED always shows
    the stored pedal state. *)
Theorem led_mirrors_pedal (ins : list inputs) (inp : inputs) (st : state) :
  curPedalState (loop inp st).1 = negb (digitalRead_D2 inp) /\
  led (loop inp st).1 = negb (digitalRead_D2 inp) /\
  led (run ins init_state).1 = curPedalState (run ins init_state).1.
Proof.
  split; [|split; [|by apply run_led]];
    unfold loop, channel_stage, pedal_stage, checkFootSwitchOnD2;
    cbn [fst snd led curPedalState]; by destruct (digitalRead_D2 inp).
Qed.

(** ** How much a cycle writes *)

Lemma length_flat_map_le {A B} (g : A -> list B) (l : list A) (k : nat) :
  (forall x, length (g x) <= k) -> length (flat_map g l) <= k * length l.
Proof.
  intros Hg. induction l as [|x l IH]; simpl; [lia|].
  rewrite length_app. specialize (Hg x). lia.
Qed.

Lemma length_serial_bytes (l : list midi_msg) :
  length (serial_bytes l) = 3 * length l.
Proof.
  unfold serial_bytes. induction l as [|m l IH]; simpl; [done|]. lia.
Qed.

Lemma rises_two (prev a b : bool) : rises prev [a; b] <= 1.
Proof. destruct prev, a, b; simpl; lia. Qed.

Lemma falls_two (prev a b : bool) : falls prev [a; b] <= 1.
Proof. destruct prev, a, b; simpl; lia. Qed.

Lemma loop_length (inp : inputs) (st : state) :
  length (loop inp st).2 <= (if falling inp st then 2 else 1) * ROWS (pads st).
Proof.
  unfold loop. cbn [fst snd]. rewrite length_app.
  rewrite pedal_stage_out, channel_stage_out, pedal_stage_rows.
  pose proof (length_flat_map_le
    (fun i => from_option (fun pad => (pad_sweep (falling inp st) pad).2) []
                (pad_at st i))
    (seq 0 (ROWS (pads st))) (if falling inp st then 1 else 0)) as H1.
  pose proof (length_flat_map_le
    (fun i => from_option
                (fun pad =>
                   (do_channel (analogRead inp)
                      (curPedalState (pedal_stage inp st).1)
                      (nth i pinsADC A0) pad i).2) []
                (pad_at (pedal_stage inp st).1 i))
    (seq 0 (ROWS (pads st))) 1) as H2.
  rewrite length_seq in H1, H2.
  assert (forall (b : bool) n, (if b then 1 else 0) * n + 1 * n
                               = (if b then 2 else 1) * n) as Hb
    by (intros [] n; lia).
  rewrite <- Hb. apply Nat.add_le_mono; [apply H1|apply H2].
  - intros i. destruct (pad_at st i) as [pad|]; cbn [from_option length];
      [|lia].
    unfold pad_sweep. destruct (falling inp st); cbn [snd length]; [|lia].
    rewrite release_pad_snd. destruct (active pad); simpl; lia.
  - intros i. destruct (pad_at _ i) as [pad|]; cbn [from_option length];
      [|lia].
    destruct (do_channel_cases (analogRead inp)
                (curPedalState (pedal_stage inp st).1)
                (nth i pinsADC A0) pad i) as [[-> _]|[[-> _]|[-> _]]];
      simpl; lia.
Qed.

(** X5: in one cycle, from a state whose deployed column has pairwise
    distinct notes, the sketch writes for the note of each row at most one
    note-on and at most one note-off, nothing else of that pitch, and at
    most one message in all when the cycle does not see the pedal released;
    over all rows that is at most one message per row, two on a release. *)
Theorem cycle_message_bound (inp : inputs) (st : state) (r : nat)
    (pad : pad_t) :
  NoDup (column_notes st) -> pad_at st r = Some pad ->
  let n_on := count (NoteOn (note pad) 0x7F) (loop inp st).2 in
  let n_off := count (NoteOff (note pad)) (loop inp st).2 in
  n_on <= 1 /\ n_off <= 1 /\
  (falling inp st = false -> n_on + n_off <= 1) /\
  (forall m, m ∈ (loop inp st).2 -> pitch m = note pad ->
     m = NoteOn (note pad) 0x7F \/ m = NoteOff (note pad)) /\
  length (loop inp st).2 <= (if falling inp st then 2 else 1) * ROWS (pads st).
Proof.
  intros Hnd Hp. cbv zeta.
  rewrite !(loop_count inp st r pad) by done.
  destruct (pad_cycle_count inp (falling inp st) r pad) as [-> ->].
  split; [apply rises_two|]. split; [apply falls_two|].
  split; [|split; [|apply loop_length]].
  - intros ->. cbn [pad_sweep fst].
    destruct (active pad), (active (pad_cycle inp false r pad).1); simpl; lia.
  - intros m Hm Hpitch.
    apply loop_out_rows in Hm as (i & p & _ & Hm).
    apply pad_cycle_msg in Hm. pose proof Hm as Hm'.
    assert (note p = note pad) as <-; [|done].
    rewrite <- Hpitch. by destruct Hm as [-> | ->].
Qed.

Lemma cycle_message_bound_witness :
  let out := (loop (cycle_A0 45) init_state).2 in
  count (NoteOn 53 0x7F) out <= 1 /\ count (NoteOff 53) out <= 1.
Proof.
  destruct (cycle_message_bound (cycle_A0 45) init_state 0
              (mk_pad false 53 30 0 30 0)) as (H1 & H2 & _);
    [|reflexivity|split; [exact H1|exact H2]].
  apply (bool_decide_unpack (NoDup (column_notes init_state))).
  vm_compute. exact I.
Defined.

(** ** Note-ons and note-offs alternate *)

Lemma sounding_app (n : Z) (a : bool) (l1 l2 : list midi_msg) :
  sounding n a (l1 ++ l2) =
  match sounding n a l1 with
  | Some b => sounding n b l2
  | None => None
  end.
Proof.
  revert a. induction l1 as [|m l1 IH]; intros a; [done|].
  cbn [app sounding].
  destruct (pitch m =? n)%Z; [|apply IH].
  destruct (msg_eqb m (NoteOn n 127)); [destruct a; [done|apply IH]|].
  destruct (msg_eqb m (NoteOff n)); [destruct a; [apply IH|done]|done].
Qed.

Lemma sounding_other (n : Z) (a : bool) (l : list midi_msg) :
  (forall m, m ∈ l -> pitch m <> n) -> sounding n a l = Some a.
Proof.
  induction l as [|m l IH]; intros Hl; [done|]. cbn [sounding].
  assert ((pitch m =? n)%Z = false) as ->
    by (apply Z.eqb_neq, Hl, list_elem_of_here).
  apply IH. intros m' Hm'. by apply Hl, list_elem_of_further.
Qed.

Lemma sounding_flat_map_row (n : Z) (a : bool) (g : nat -> list midi_msg)
    (rows : list nat) (r : nat) :
  NoDup rows -> r ∈ rows ->
  (forall i, i ∈ rows -> i <> r -> forall m, m ∈ g i -> pitch m <> n) ->
  sounding n a (flat_map g rows) = sounding n a (g r).
Proof.
  intros Hnd. induction Hnd as [|i rows Hi Hnd IH]; intros Hr Hg.
  - by apply elem_of_nil in Hr.
  - cbn [flat_map]. rewrite sounding_app.
    destruct (decide (i = r)) as [->|Hne].
    + destruct (sounding n a (g r)) as [b|]; [|done].
      apply sounding_other. intros m Hm.
      apply elem_of_flat_map in Hm as (j & Hj & Hm).
      apply (Hg j); [by apply list_elem_of_further|by intros ->|done].
    + rewrite (sounding_other n a (g i))
        by (apply Hg; [apply list_elem_of_here|done]).
      apply IH.
      * apply elem_of_cons in Hr as [->|Hr]; done.
      * intros j Hj. apply Hg. by apply list_elem_of_further.
Qed.

Lemma sounding_on (n : Z) : sounding n false [NoteOn n 0x7F] = Some true.
Proof.
  unfold NoteOn, sounding, msg_eqb. cbn [status pitch velocity].
  by rewrite !Z.eqb_refl.
Qed.

Lemma sounding_off (n : Z) : sounding n true [NoteOff n] = Some false.
Proof.
  unfold NoteOn, NoteOff, sounding, msg_eqb. cbn [status pitch velocity].
  by rewrite !Z.eqb_refl.
Qed.

Lemma sounding_eval adc pedal pin pad iROW :
  let r := do_channel adc pedal pin pad iROW in
  sounding (note pad) (active pad) r.2 = Some (active r.1).
Proof.
  cbv zeta.
  destruct (do_channel_cases adc pedal pin pad iROW)
    as [[-> ->]|[(-> & -> & ->)|(-> & -> & ->)]];
    [done|apply sounding_on|apply sounding_off].
Qed.

Lemma sounding_sweep (edge : bool) (pad : pad_t) :
  sounding (note pad) (active pad) (pad_sweep edge pad).2 =
  Some (active (pad_sweep edge pad).1).
Proof.
  unfold pad_sweep. destruct edge; [|done].
  rewrite release_pad_fst, release_pad_snd.
  destruct (active pad) eqn:Ha; [apply sounding_off|].
  by rewrite <- Ha.
Qed.

Lemma loop_sounding (inp : inputs) (st : state) (r : nat) (pad : pad_t) :
  NoDup (column_notes st) -> pad_at st r = Some pad ->
  sounding (note pad) (active pad) (loop inp st).2 =
  Some (active (pad_cycle inp (falling inp st) r pad).1).
Proof.
  intros Hnd Hp.
  assert (forall i p m, pad_at st i = Some p -> i <> r ->
            m ∈ (pad_cycle inp (falling inp st) i p).2 ->
            pitch m <> note pad) as Hother.
  { intros i p m Hi Hne Hin Hm. apply pad_cycle_pitch in Hin.
    apply Hne. eapply column_notes_inj; [done..|congruence]. }
  unfold loop, pad_cycle in *. cbn [fst snd] in *. rewrite sounding_app.
  rewrite pedal_stage_out, channel_stage_out, pedal_stage_rows,
    pedal_stage_pedal.
  pose proof (pad_at_row st r pad Hp) as Hr.
  rewrite (sounding_flat_map_row _ _ _ _ r); [|apply NoDup_seq|done|].
  - rewrite Hp. cbn [from_option]. rewrite sounding_sweep.
    rewrite (sounding_flat_map_row _ _ _ _ r); [|apply NoDup_seq|done|].
    + unfold pad_at at 1. rewrite pedal_stage_pads, decide_True, Hp by done.
      cbn [fmap option_fmap option_map from_option].
      assert (note (pad_sweep (falling inp st) pad).1 = note pad) as Hn
        by (unfold pad_sweep; destruct (falling inp st);
            [apply release_pad_config|done]).
      rewrite <- Hn at 1. apply sounding_eval.
    + intros i _ Hne m. unfold pad_at at 1.
      rewrite pedal_stage_pads, decide_True by done.
      destruct (pad_at st i) as [p|] eqn:Hi; [|by intros ?%elem_of_nil].
      intros Hin. apply (Hother i p m Hi Hne), elem_of_app. by right.
  - intros i _ Hne m.
    destruct (pad_at st i) as [p|] eqn:Hi; [|by intros ?%elem_of_nil].
    intros Hin. apply (Hother i p m Hi Hne), elem_of_app. by left.
Qed.

Lemma run_sounding (ins : list inputs) (st : state) (r : nat) (pad : pad_t) :
  NoDup (column_notes st) -> pad_at st r = Some pad ->
  sounding (note pad) (active pad) (serial (run ins st).2) =
  Some (active_at (run ins st).1 r).
Proof.
  revert st pad. induction ins as [|inp ins IH]; intros st pad Hnd Hp.
  - unfold active_at. cbn [run fst snd serial concat sounding]. by rewrite Hp.
  - cbn [run fst snd serial concat]. rewrite sounding_app.
    rewrite (loop_sounding inp st r pad) by done.
    pose proof (loop_pad_at inp st r) as Hl. rewrite Hp in Hl.
    cbn [fmap option_fmap option_map] in Hl.
    assert (note (pad_cycle inp (falling inp st) r pad).1 = note pad) as Hn
      by apply pad_cycle_config.
    rewrite <- Hn. apply IH; [by rewrite loop_column_notes|done].
Qed.

Lemma sounding_balance (n : Z) (a b : bool) (l : list midi_msg) :
  sounding n a l = Some b ->
  count (NoteOn n 0x7F) l + (if a then 1 else 0) =
  count (NoteOff n) l + (if b then 1 else 0).
Proof.
  revert a. induction l as [|m l IH]; intros a; cbn [sounding count].
  - by intros [= ->].
  - destruct (pitch m =? n)%Z eqn:Hp.
    + destruct (msg_eqb m (NoteOn n 127)) eqn:Hon.
      * apply msg_eqb_eq in Hon as ->. destruct a; [done|].
        intros H%IH. unfold NoteOn, NoteOff, msg_eqb in *.
        cbn [status pitch velocity] in *. rewrite !Z.eqb_refl.
        cbn [andb Z.eqb] in *. lia.
      * destruct (msg_eqb m (NoteOff n)) eqn:Hoff; [|done].
        apply msg_eqb_eq in Hoff as ->. destruct a; [|done].
        intros H%IH. unfold NoteOn, NoteOff, msg_eqb in *.
        cbn [status pitch velocity] in *. rewrite !Z.eqb_refl.
        cbn [andb Z.eqb] in *. lia.
    + intros H%IH. unfold NoteOn, NoteOff, msg_eqb in *.
      cbn [status pitch velocity].
      rewrite (Z.eqb_sym n), Hp, !andb_false_r. cbn [andb]. lia.
Qed.

(** X6: in any run from a state whose deployed column has pairwise
    distinct notes, the messages written for the note of a row alternate:
    a note-on is written only while the note is off, a note-off only while
    it is on, starting from the active flag of the row and ending in the
    active flag the run leaves. *)
Theorem notes_alternate
    (ins : list inputs) (st : state) (r : nat) (pad : pad_t) :
  NoDup (column_notes st) -> pad_at st r = Some pad ->
  sounding (note pad) (active pad) (serial (run ins st).2) =
  Some (active_at (run ins st).1 r).
Proof. apply run_sounding. Qed.

Lemma notes_alternate_witness :
  sounding 53 false
    (serial (run (map cycle_A0 [45; 5; 60; 60]%Z) init_state).2) = Some true.
Proof.
  apply (notes_alternate (map cycle_A0 [45; 5; 60; 60]%Z) init_state 0
           (mk_pad false 53 30 0 30 0)); [|reflexivity].
  apply (bool_decide_unpack (NoDup (column_notes init_state))).
  vm_compute. exact I.
Defined.

(** X7: under the same condition the note-ons and note-offs written for
    the note of a row balance with its active flag: a row that is inactive
    before and after a run has had as many note-offs as note-ons, and a row
    left active has had exactly one note-on more. *)
Theorem notes_balance
    (ins : list inputs) (st : state) (r : nat) (pad : pad_t) :
  NoDup (column_notes st) -> pad_at st r = Some pad ->
  count (NoteOn (note pad) 0x7F) (serial (run ins st).2) +
    (if active pad then 1 else 0) =
  count (NoteOff (note pad)) (serial (run ins st).2) +
    (if active_at (run ins st).1 r then 1 else 0).
Proof.
  intros Hnd Hp. apply sounding_balance. by apply run_sounding.
Qed.

Lemma notes_balance_witness :
  let out := serial (run (map cycle_A0 [45; 5; 60; 60]%Z) init_state).2 in
  count (NoteOn 53 0x7F) out + 0 = count (NoteOff 53) out + 1.
Proof.
  apply (notes_balance (map cycle_A0 [45; 5; 60; 60]%Z) init_state 0
           (mk_pad false 53 30 0 30 0)); [|reflexivity].
  apply (bool_decide_unpack (NoDup (column_notes init_state))).
  vm_compute. exact I.
Defined.

(** ** Quiet bars *)

(** X8: after a cycle that reads the pedal released and, for every row, a
    sample at or below the threshold of its pad, every pad of the deployed
    column is inactive: with the pedal up and the bars quiet no note is
    left on. *)
Theorem quiet_cycle_all_off (inp : inputs) (st : state) (r : nat)
    (pad' : pad_t) :
  held_now inp = false ->
  (forall i pad, pad_at st i = Some pad ->
     (analogRead inp (nth i pinsADC A0) <= minAmplitude pad)%Z) ->
  pad_at (loop inp st).1 r = Some pad' -> active pad' = false.
Proof.
  intros Hh Hq. rewrite loop_pad_at.
  destruct (pad_at st r) as [pad|] eqn:Hp; [|done].
  intros [= <-]. specialize (Hq r pad Hp).
  unfold pad_cycle, pad_eval. cbn [fst]. rewrite Hh.
  assert (minAmplitude (pad_sweep (falling inp st) pad).1 = minAmplitude pad)
    as Hm by (unfold pad_sweep; destruct (falling inp st);
              [apply release_pad_config|done]).
  destruct (active (pad_sweep (falling inp st) pad).1) eqn:Ha.
  - destruct (do_channel_quiet (analogRead inp) false
                (nth r pinsADC A0) (pad_sweep (falling inp st) pad).1 r)
      as [H _]; [by rewrite Hm|]. by rewrite (H Ha).
  - destruct (do_channel_quiet (analogRead inp) false
                (nth r pinsADC A0) (pad_sweep (falling inp st) pad).1 r)
      as [_ H]; [by rewrite Hm|]. by rewrite (H Ha).
Qed.

Lemma quiet_cycle_all_off_witness :
  let st := (loop (cycle_A0 45) init_state).1 in
  pad_at st 0 = Some (mk_pad true 53 30 0 45 0) /\
  active (mk_pad false 53 30 0 30 0) = false.
Proof.
  split; [reflexivity|].
  apply (quiet_cycle_all_off (cycle_A0 5) (loop (cycle_A0 45) init_state).1 0
           (mk_pad false 53 30 0 30 0)); [reflexivity| |reflexivity].
  intros i pad H.
  do 16 (destruct i as [|i]; [vm_compute in H; simplify_eq; simpl; lia|]).
  vm_compute in H. by destruct i.
Defined.

Lemma idle_pad_cycle inp edge iROW pad :
  active pad = false ->
  (analogRead inp (nth iROW pinsADC A0) <= minAmplitude pad)%Z ->
  pad_cycle inp edge iROW pad = (pad, []).
Proof.
  intros Ha Hle. unfold pad_cycle, pad_eval, pad_sweep.
  assert ((if edge then release_pad pad else (pad, [])) = (pad, [])) as ->
    by (destruct edge; [unfold release_pad; by rewrite Ha|done]).
  cbn [fst snd app].
  destruct (do_channel_quiet (analogRead inp) (held_now inp)
              (nth iROW pinsADC A0) pad iROW Hle) as [_ H].
  by rewrite (H Ha).
Qed.

Lemma idle_loop (inp : inputs) (st : state) :
  (forall r pad, pad_at st r = Some pad -> active pad = false) ->
  (forall r pad, pad_at st r = Some pad ->
     (analogRead inp (nth r pinsADC A0) <= minAmplitude pad)%Z) ->
  (loop inp st).2 = [] /\
  forall r c, get_pad (pads (loop inp st).1) r c = get_pad (pads st) r c.
Proof.
  intros Hidle Hq. split.
  - destruct (loop inp st).2 as [|m l] eqn:E; [done|]. exfalso.
    assert (m ∈ (loop inp st).2) as Hm by (rewrite E; apply list_elem_of_here).
    apply loop_out_rows in Hm as (r & pad & Hp & Hm).
    rewrite idle_pad_cycle in Hm by eauto. by apply elem_of_nil in Hm.
  - intros r c. rewrite loop_get_pad. case_decide as Hc; [|done]. subst c.
    fold (pad_at st r). destruct (pad_at st r) as [pad|] eqn:Hp; [|done].
    cbn [fmap option_fmap option_map]. by rewrite idle_pad_cycle by eauto.
Qed.

(** X9: from a state in which no pad of the deployed column is active, as
    long as every sample is at or below the threshold of its pad the
    sketch writes nothing and changes no pad, whatever the pedal does. *)
Theorem idle_stays_silent (ins : list inputs) (st : state) :
  (forall r pad, pad_at st r = Some pad -> active pad = false) ->
  Forall (fun inp => forall r pad, pad_at st r = Some pad ->
            (analogRead inp (nth r pinsADC A0) <= minAmplitude pad)%Z) ins ->
  serial (run ins st).2 = [] /\
  forall r c, get_pad (pads (run ins st).1) r c = get_pad (pads st) r c.
Proof.
  intros Hidle Hq. revert st Hidle Hq.
  induction ins as [|inp ins IH]; intros st Hidle Hq; [done|].
  apply Forall_cons in Hq as [Hq Hqs].
  destruct (idle_loop inp st Hidle Hq) as [Hout Hpads].
  assert (forall r, pad_at (loop inp st).1 r = pad_at st r) as Hsame
    by (intros r; apply Hpads).
  cbn [run fst snd serial concat]. rewrite Hout. cbn [app].
  destruct (IH (loop inp st).1) as [Hout' Hpads'].
  - intros r pad. rewrite Hsame. apply Hidle.
  - eapply Forall_impl; [exact Hqs|]. intros x Hx r pad.
    rewrite Hsame. apply Hx.
  - split; [exact Hout'|]. intros r c. by rewrite Hpads', Hpads.
Qed.

Lemma idle_stays_silent_witness :
  serial (run [mk_inputs false (fun _ => 30%Z); mk_inputs true (fun _ => 7%Z)]
            init_state).2 = [].
Proof.
  apply (idle_stays_silent
           [mk_inputs false (fun _ => 30%Z); mk_inputs true (fun _ => 7%Z)]
           init_state).
  - intros r pad H.
    do 16 (destruct r as [|r]; [vm_compute in H; by simplify_eq|]).
    vm_compute in H. by destruct r.
  - repeat constructor; intros r pad H;
      (do 16 (destruct r as [|r]; [vm_compute in H; simplify_eq; simpl; lia|]));
      vm_compute in H; by destruct r.
Defined.

(** ** Releasing the pedal on a ringing bar *)

Lemma do_channel_strike adc pedal pin pad iROW :
  (adc pin > minAmplitude pad)%Z -> active pad = false ->
  let r := do_channel adc pedal pin pad iROW in
  r.2 = [NoteOn (note pad) 0x7F] /\ active r.1 = true.
Proof.
  intros Hgt Ha. cbv zeta. rewrite do_channel_no_tracking_eq.
  unfold do_channel_no_tracking.
  assert ((adc pin >? minAmplitude pad)%Z = true) as -> by lia.
  by rewrite Ha.
Qed.

(** X10: when a cycle sees the pedal released while the sample of an
    active pad is still above its threshold, the sweep writes the note-off
    of the pad and the evaluation of the same cycle writes a note-on for it
    again: the note is retriggered, and the pad ends the cycle active. *)
Theorem pedal_release_retriggers (inp : inputs) (st : state) (r : nat)
    (pad : pad_t) :
  falling inp st = true -> pad_at st r = Some pad -> active pad = true ->
  (analogRead inp (nth r pinsADC A0) > minAmplitude pad)%Z ->
  (loop inp st).2 =
    (pedal_stage inp st).2 ++ (channel_stage inp (pedal_stage inp st).1).2 /\
  NoteOff (note pad) ∈ (pedal_stage inp st).2 /\
  NoteOn (note pad) 0x7F ∈ (channel_stage inp (pedal_stage inp st).1).2 /\
  active <$> pad_at (loop inp st).1 r = Some true.
Proof.
  intros Hf Hp Ha Hgt. split; [reflexivity|].
  pose proof (pad_at_row st r pad Hp) as Hr.
  assert (pad_at (pedal_stage inp st).1 r = Some (set_active false pad)) as Hp1.
  { unfold pad_at at 1. rewrite pedal_stage_pads, decide_True, Hp, Hf by done.
    cbn [fmap option_fmap option_map pad_sweep]. by rewrite release_pad_fst. }
  destruct (do_channel_strike (analogRead inp) (held_now inp)
              (nth r pinsADC A0) (set_active false pad) r Hgt eq_refl)
    as [Hout Hact].
  split; [|split].
  - rewrite pedal_stage_out, Hf. apply elem_of_flat_map.
    exists r. split; [done|]. rewrite Hp. cbn [from_option pad_sweep].
    rewrite release_pad_snd, Ha. apply list_elem_of_here.
  - rewrite channel_stage_out, pedal_stage_rows, pedal_stage_pedal.
    apply elem_of_flat_map. exists r. split; [done|].
    rewrite Hp1. cbn [from_option]. rewrite Hout. apply list_elem_of_here.
  - unfold loop, pad_at. cbn [fst snd].
    rewrite channel_stage_pads, decide_True, pedal_stage_pedal, Hp1 by done.
    cbn [fmap option_fmap option_map]. by rewrite Hact.
Qed.

Lemma pedal_release_retriggers_witness :
  let st := (loop (mk_inputs false (fun _ => 45%Z)) init_state).1 in
  let inp := mk_inputs true (fun _ => 45%Z) in
  NoteOff 53 ∈ (pedal_stage inp st).2 /\
  NoteOn 53 0x7F ∈ (channel_stage inp (pedal_stage inp st).1).2.
Proof.
  destruct (pedal_release_retriggers (mk_inputs true (fun _ => 45%Z))
              (loop (mk_inputs false (fun _ => 45%Z)) init_state).1 0
              (mk_pad true 53 30 0 45 0))
    as (_ & H1 & H2 & _); [reflexivity|reflexivity|reflexivity|simpl; lia|].
  split; [exact H1|exact H2].
Defined.

End MIDIVibes.
